(** * Verification of the module versioning helpers (package tools)

    Shallow embedding of [go/tools/tools.go]: the versioning configuration,
    the three indices built from it (module sets, module info, module paths),
    the conversion from go.mod file paths to Git tag names, and the stability
    predicate on version strings.

    Go strings are byte strings: they are modelled by [string].  Go maps are
    modelled by [gmap]; a nil map returned next to an error is modelled by
    [None].  Go's [(value, error)] results are pairs whose second component
    is [option error], [None] standing for a nil error. *)

From stdpp Require Import gmap strings list fin_maps.
From Stdlib Require Import Ascii.
From Stdlib Require String.

Local Open Scope stdpp_scope.

(** ** Types of the package *)

(** [type ModulePath string], [type ModuleFilePath string] and
    [type ModuleTagName string] are all defined over Go strings. *)
Abbreviation ModulePath := string (only parsing).
Abbreviation ModuleFilePath := string (only parsing).
Abbreviation ModuleTagName := string (only parsing).

Record ModuleSet := mkModuleSet {
  Version : string;
  Modules : list ModulePath
}.

Record ModuleInfo := mkModuleInfo {
  ModuleSetName : string;
  InfoVersion : string
}.

Abbreviation ModuleSetMap := (gmap string ModuleSet) (only parsing).
Abbreviation ModuleInfoMap := (gmap string ModuleInfo) (only parsing).
Abbreviation ModulePathMap := (gmap string string) (only parsing).

Record versionConfig := mkVersionConfig {
  ModuleSets : ModuleSetMap;
  ExcludedModules : list ModulePath
}.

Record ModuleVersioning := mkModuleVersioning {
  ModSetMap : ModuleSetMap;
  ModPathMap : ModulePathMap;
  ModInfoMap : ModuleInfoMap
}.

(** [const repoRootTag = ModuleTagName("repoRootTag")] *)
Definition repoRootTag : ModuleTagName := "repoRootTag".

(** ** Errors

    The package builds its errors with [fmt.Errorf]; each format string of
    the source is one constructor carrying the values that are formatted in,
    and [Error] renders the message.  [SkipDir] is [filepath.SkipDir] and
    [OSError] an error of the operating system (lstat, directory listing,
    file read, configuration read). *)
Inductive error : Type :=
| SkipDir
| OSError (msg : string)
| DuplicateModuleError (modPath : ModulePath) (firstSet secondSet : string)
| ExcludedModuleConflictError (modPath : ModulePath)
| UnknownModuleError (modPath : ModulePath)
| UnknownSetError (modSetName : string)
| PathOutsideRepoError (modFilePath : ModuleFilePath) (repoRoot : string)
| InvalidManifestPathError (modFilePath : ModuleFilePath)
| Wrapped (context : string) (cause : error).

Fixpoint Error (e : error) : string :=
  match e with
  | SkipDir => "skip this directory"
  | OSError msg => msg
  | DuplicateModuleError modPath s1 s2 =>
      "Module " +:+ modPath +:+ " exists more than once. Exists in sets "
        +:+ s1 +:+ " and " +:+ s2 +:+ "."
  | ExcludedModuleConflictError modPath =>
      "Module " +:+ modPath +:+ " is an excluded module and should not be versioned."
  | UnknownModuleError modPath =>
      "could not find module path " +:+ modPath +:+ " in path map."
  | UnknownSetError name =>
      "could not find module set " +:+ name +:+ " in versioning file"
  | PathOutsideRepoError p root =>
      "modFilePath " +:+ p +:+ " not contained in repo with root " +:+ root
  | InvalidManifestPathError p =>
      "modFilePath " +:+ p +:+ " does not end with 'go.mod'"
  | Wrapped context cause => context +:+ ": " +:+ Error cause
  end.

Global Instance error_eq_dec : EqDecision error.
Proof. solve_decision. Defined.

(** ** The functions of package [strings] that the source calls

    Written as the Go library defines them, by length test and slicing. *)
Module strings.

Definition len (s : string) : nat := String.length s.

(** [s[i:j]] for [i <= j <= len(s)] *)
Definition slice (s : string) (i j : nat) : string := String.substring i (j - i) s.

Definition HasPrefix (s prefix : string) : bool :=
(len prefix <=? len s)%nat && String.eqb (slice s 0 (len prefix)) prefix.

Definition HasSuffix (s suffix : string) : bool :=
(len suffix <=? len s)%nat && String.eqb (slice s (len s - len suffix) (len s)) suffix.

Definition TrimPrefix (s prefix : string) : string :=
if HasPrefix s prefix then slice s (len prefix) (len s) else s.

Definition TrimSuffix (s suffix : string) : string :=
if HasSuffix s suffix then slice s 0 (len s - len suffix) else s.

End strings.

(** ** Tag names *)

(** [CombineModuleTagNamesAndVersion]: the loop appends one full tag per tag
    name to the slice [modFullTags], which starts out nil. *)
Definition newFullTag (version : string) (modTagName : ModuleTagName) : string :=
  if decide (modTagName = repoRootTag) then version
  else modTagName +:+ "/" +:+ version.

Fixpoint CombineModuleTagNamesAndVersion_loop
    (modTagNames : list ModuleTagName) (version : string)
    (modFullTags : list string) : list string :=
  match modTagNames with
  | [] => modFullTags
  | modTagName :: rest =>
      CombineModuleTagNamesAndVersion_loop rest version
        (modFullTags ++ [newFullTag version modTagName])
  end.

Definition CombineModuleTagNamesAndVersion
    (modTagNames : list ModuleTagName) (version : string) : list string :=
  CombineModuleTagNamesAndVersion_loop modTagNames version [].

(** [modulePathsToFilePaths]: on the first module path that is not a key of
    the map the function returns the empty slice [[]ModuleFilePath{}] and an
    error; the paths collected so far are dropped. *)
Fixpoint modulePathsToFilePaths_loop
    (modPaths : list ModulePath) (modPathMap : ModulePathMap)
    (modFilePaths : list ModuleFilePath) : list ModuleFilePath * option error :=
  match modPaths with
  | [] => (modFilePaths, None)
  | modPath :: rest =>
      match modPathMap !! modPath with
      | None => ([], Some (UnknownModuleError modPath))
      | Some p => modulePathsToFilePaths_loop rest modPathMap (modFilePaths ++ [p])
      end
  end.

Definition modulePathsToFilePaths
    (modPaths : list ModulePath) (modPathMap : ModulePathMap)
    : list ModuleFilePath * option error :=
  modulePathsToFilePaths_loop modPaths modPathMap [].

(** [moduleFilePathToTagName] *)
Definition moduleFilePathToTagName
    (modFilePath : ModuleFilePath) (repoRoot : string)
    : ModuleTagName * option error :=
  if negb (strings.HasPrefix modFilePath (repoRoot +:+ "/")) then
    ("", Some (PathOutsideRepoError modFilePath repoRoot))
  else if negb (strings.HasSuffix modFilePath "go.mod") then
    ("", Some (InvalidManifestPathError modFilePath))
  else
    let modTagNameWithGoMod := strings.TrimPrefix modFilePath (repoRoot +:+ "/") in
    let modTagName := strings.TrimSuffix modTagNameWithGoMod "/go.mod" in
    if decide (modTagName = "go.mod") then (repoRootTag, None)
    else (modTagName, None).

(** [moduleFilePathsToTagNames] *)
Fixpoint moduleFilePathsToTagNames_loop
    (modFilePaths : list ModuleFilePath) (repoRoot : string)
    (modNames : list ModuleTagName) : option (list ModuleTagName) * option error :=
  match modFilePaths with
  | [] => (Some modNames, None)
  | modFilePath :: rest =>
      match moduleFilePathToTagName modFilePath repoRoot with
      | (_, Some err) =>
          (None, Some (Wrapped "could not convert module file path to tag name" err))
      | (modTagName, None) =>
          moduleFilePathsToTagNames_loop rest repoRoot (modNames ++ [modTagName])
      end
  end.

Definition moduleFilePathsToTagNames
    (modFilePaths : list ModuleFilePath) (repoRoot : string)
    : option (list ModuleTagName) * option error :=
  moduleFilePathsToTagNames_loop modFilePaths repoRoot [].

(** [ModulePathsToTagNames] *)
Definition ModulePathsToTagNames
    (modPaths : list ModulePath) (modPathMap : ModulePathMap) (repoRoot : string)
    : option (list ModuleTagName) * option error :=
  match modulePathsToFilePaths modPaths modPathMap with
  | (_, Some err) =>
      (None, Some (Wrapped "could not convert module paths to file paths" err))
  | (modFilePaths, None) =>
      match moduleFilePathsToTagNames modFilePaths repoRoot with
      | (_, Some err) =>
          (None, Some (Wrapped "could not convert module file paths to tag names" err))
      | (modTagNames, None) => (modTagNames, None)
      end
  end.


(** ** Package [golang.org/x/mod/semver] *)

(** Modelled from the spec: [semver.Major] and [semver.Compare], with which
    [IsStableVersion] is written, belong to the library
    [golang.org/x/mod/semver], which is not among the sources.  The spec
    gives the comparison as numeric on the major, minor and patch numbers,
    with a malformed string below every version.  The definitions follow the
    functions of the library in that sense: [parse], [parseInt],
    [parsePrerelease], [parseBuild], [compareInt] and [comparePrerelease].
    A result [(..., ok bool)] is an option; [Compare] returns -1, 0 or +1 as
    an integer. *)
Module semver.

Import strings.

Record parsed := mkParsed {
major : string;
minor : string;
patch : string;
short : string;
prerelease : string;
build : string
}.

Definition isDigit (c : ascii) : bool := Ascii.leb "0" c && Ascii.leb c "9".

Definition isIdentChar (c : ascii) : bool :=
Ascii.leb "A" c && Ascii.leb c "Z" || Ascii.leb "a" c && Ascii.leb c "z"
|| Ascii.leb "0" c && Ascii.leb c "9" || Ascii.eqb c "-".

(** Number of leading bytes of [s] that satisfy [p]. *)
Fixpoint countWhile (p : ascii → bool) (s : string) : nat :=
match s with
| String c s' => if p c then S (countWhile p s') else 0
| EmptyString => 0
end.

(** The index reached by [for i < len(v) && p(v[i]) { i++ }] started at [i]. *)
Definition scan (p : ascii → bool) (v : string) (i : nat) : nat :=
i + countWhile p (slice v i (len v)).

Definition parseInt (v : string) : option (string * string) :=
match v with
| EmptyString => None
| String c _ =>
    if Ascii.ltb c "0" || Ascii.ltb "9" c then None
    else
      let i := scan isDigit v 1 in
      if Ascii.eqb c "0" && negb (i =? 1)%nat then None
      else Some (slice v 0 i, slice v i (len v))
end.

Definition isBadNum (v : string) : bool :=
let i := scan isDigit v 0 in
(i =? len v)%nat && (1 <? i)%nat
&& match String.get 0 v with Some c => Ascii.eqb c "0" | None => false end.

Definition isNum (v : string) : bool :=
let i := scan isDigit v 0 in (i =? len v)%nat.

(** The loop of [parsePrerelease]; [rest] is [v[i:]].  The result is the
  final value of [i], or [None] where the source returns with [ok] false. *)
Fixpoint parsePrerelease_loop (v rest : string) (i start : nat) : option nat :=
match rest with
| String c rest' =>
    if Ascii.eqb c "+" then
      if (start =? i)%nat || isBadNum (slice v start i) then None else Some i
    else if negb (isIdentChar c) && negb (Ascii.eqb c ".") then None
    else if Ascii.eqb c "." then
      if (start =? i)%nat || isBadNum (slice v start i) then None
      else parsePrerelease_loop v rest' (i + 1) (i + 1)
    else parsePrerelease_loop v rest' (i + 1) start
| EmptyString =>
    if (start =? i)%nat || isBadNum (slice v start i) then None else Some i
end.

Definition parsePrerelease (v : string) : option (string * string) :=
match v with
| String c v' =>
    if negb (Ascii.eqb c "-") then None
    else match parsePrerelease_loop v v' 1 1 with
         | Some i => Some (slice v 0 i, slice v i (len v))
         | None => None
         end
| EmptyString => None
end.

Fixpoint parseBuild_loop (rest : string) (i start : nat) : option nat :=
match rest with
| String c rest' =>
    if negb (isIdentChar c) && negb (Ascii.eqb c ".") then None
    else if Ascii.eqb c "." then
      if (start =? i)%nat then None else parseBuild_loop rest' (i + 1) (i + 1)
    else parseBuild_loop rest' (i + 1) start
| EmptyString => if (start =? i)%nat then None else Some i
end.

Definition parseBuild (v : string) : option (string * string) :=
match v with
| String c v' =>
    if negb (Ascii.eqb c "+") then None
    else match parseBuild_loop v' 1 1 with
         | Some i => Some (slice v 0 i, slice v i (len v))
         | None => None
         end
| EmptyString => None
end.

Definition startsWith (c : ascii) (v : string) : bool :=
match v with String d _ => Ascii.eqb d c | EmptyString => false end.

(** The tail of [parse] after the patch number: optional pre-release, optional
  build metadata, then the end of the string. *)
Definition parse_tail (major minor patch v : string) : option parsed :=
match (if startsWith "-" v then parsePrerelease v else Some ("", v)) with
| None => None
| Some (pre, v) =>
    match (if startsWith "+" v then parseBuild v else Some ("", v)) with
    | None => None
    | Some (bld, v) =>
        if decide (v = "") then Some (mkParsed major minor patch "" pre bld)
        else None
    end
end.

Definition parse (v : string) : option parsed :=
match v with
| EmptyString => None
| String c v1 =>
    if negb (Ascii.eqb c "v") then None
    else
      match parseInt v1 with
      | None => None
      | Some (major, v) =>
          match v with
          | EmptyString => Some (mkParsed major "0" "0" ".0.0" "" "")
          | String c v2 =>
              if negb (Ascii.eqb c ".") then None
              else
                match parseInt v2 with
                | None => None
                | Some (minor, v) =>
                    match v with
                    | EmptyString => Some (mkParsed major minor "0" ".0" "" "")
                    | String c v3 =>
                        if negb (Ascii.eqb c ".") then None
                        else
                          match parseInt v3 with
                          | None => None
                          | Some (patch, v) => parse_tail major minor patch v
                          end
                    end
                end
          end
      end
end.

Definition Major (v : string) : string :=
match parse v with
| None => ""
| Some pv => slice v 0 (1 + len (major pv))
end.

Definition compareInt (x y : string) : Z :=
if decide (x = y) then 0
else if (len x <? len y)%nat then -1
else if (len y <? len x)%nat then 1
else if String.ltb x y then -1 else 1.

Definition nextIdent (x : string) : string * string :=
let i := scan (λ c, negb (Ascii.eqb c ".")) x 0 in
(slice x 0 i, slice x i (len x)).

(** The loop [for x != "" && y != ""] of [comparePrerelease]; every turn
  drops at least one byte of [x], so [len x] turns are enough. *)
Fixpoint comparePrerelease_loop (fuel : nat) (x y : string) : Z :=
match fuel with
| O => if decide (x = "") then -1 else 1
| S fuel' =>
    if bool_decide (x ≠ "") && bool_decide (y ≠ "") then
      let x := slice x 1 (len x) in
      let y := slice y 1 (len y) in
      let '(dx, x) := nextIdent x in
      let '(dy, y) := nextIdent y in
      if decide (dx ≠ dy) then
        let ix := isNum dx in
        let iy := isNum dy in
        if negb (Bool.eqb ix iy) then (if ix then -1 else 1)
        else if ix && (len dx <? len dy)%nat then -1
        else if ix && (len dy <? len dx)%nat then 1
        else if String.ltb dx dy then -1 else 1
      else comparePrerelease_loop fuel' x y
    else if decide (x = "") then -1 else 1
end.

Definition comparePrerelease (x y : string) : Z :=
if decide (x = y) then 0
else if decide (x = "") then 1
else if decide (y = "") then -1
else comparePrerelease_loop (len x) x y.

Definition Compare (v w : string) : Z :=
match parse v, parse w with
| None, None => 0
| None, Some _ => -1
| Some _, None => 1
| Some pv, Some pw =>
    let c := compareInt (major pv) (major pw) in
    if decide (c ≠ 0%Z) then c
    else
      let c := compareInt (minor pv) (minor pw) in
      if decide (c ≠ 0%Z) then c
      else
        let c := compareInt (patch pv) (patch pw) in
        if decide (c ≠ 0%Z) then c
        else comparePrerelease (prerelease pv) (prerelease pw)
end.

End semver.

(** [IsStableVersion] *)
Definition IsStableVersion (v : string) : bool :=
  (0 <=? semver.Compare (semver.Major v) "v1")%Z.

(** The number a string of decimal digits denotes. *)
Definition digitValue (c : ascii) : N := (N_of_ascii c - 48)%N.

Definition decimalValue (s : string) : N :=
  foldl (λ acc c, (10 * acc + digitValue c)%N) 0%N (String.list_ascii_of_string s).

(** ** The indices built from the configuration *)

(** [getExcludedModules]: the loop stores every excluded module path as a key
    of a fresh [map[ModulePath]struct{}], that is, a set. *)
Definition getExcludedModules (versionCfg : versionConfig) : gset string :=
  foldl (λ excludedModules mod_, {[mod_]} ∪ excludedModules) ∅
        (ExcludedModules versionCfg).

Definition shouldExcludeModule (versionCfg : versionConfig) (modPath : ModulePath) : bool :=
  bool_decide (modPath ∈ getExcludedModules versionCfg).

(** [buildModuleSetsMap] *)
Definition buildModuleSetsMap (versionCfg : versionConfig)
    : ModuleSetMap * option error :=
  (ModuleSets versionCfg, None).

(** [buildModuleMap].  The inner loop runs over the modules of one set; it
    stops at the first module that is already a key of [modMap] or that is
    excluded. *)
Fixpoint buildModuleMap_modules (versionCfg : versionConfig)
    (setName : string) (moduleSet : ModuleSet) (modules : list ModulePath)
    (modMap : ModuleInfoMap) : error + ModuleInfoMap :=
  match modules with
  | [] => inr modMap
  | modPath :: rest =>
      match modMap !! modPath with
      | Some info =>
          inl (DuplicateModuleError modPath (ModuleSetName info) setName)
      | None =>
          if shouldExcludeModule versionCfg modPath then
            inl (ExcludedModuleConflictError modPath)
          else
            buildModuleMap_modules versionCfg setName moduleSet rest
              (<[modPath := mkModuleInfo setName (Version moduleSet)]> modMap)
      end
  end.

(** The outer loop, over the entries of the map [ModuleSets] in the order in
    which [range] yields them. *)
Fixpoint buildModuleMap_sets (versionCfg : versionConfig)
    (sets : list (string * ModuleSet)) (modMap : ModuleInfoMap)
    : error + ModuleInfoMap :=
  match sets with
  | [] => inr modMap
  | (setName, moduleSet) :: rest =>
      match buildModuleMap_modules versionCfg setName moduleSet
              (Modules moduleSet) modMap with
      | inl err => inl err
      | inr modMap' => buildModuleMap_sets versionCfg rest modMap'
      end
  end.

(** Go leaves the order of [range] over a map unspecified.  The order is an
    argument: [range m] lists the entries of [m] in the order of the run, and
    [range_ok] says that it lists exactly the entries of the map. *)
Definition range_ok (range : ModuleSetMap → list (string * ModuleSet)) : Prop :=
  ∀ m, range m ≡ₚ map_to_list m.

Definition buildModuleMap (range : ModuleSetMap → list (string * ModuleSet))
    (versionCfg : versionConfig) : option ModuleInfoMap * option error :=
  match buildModuleMap_sets versionCfg (range (ModuleSets versionCfg)) ∅ with
  | inl err => (None, Some err)
  | inr modMap => (Some modMap, None)
  end.

(** [GetModuleSet] *)
Definition GetModuleSet (modVersioning : ModuleVersioning) (modSetName : string)
    : ModuleSet * option error :=
  match ModSetMap modVersioning !! modSetName with
  | None => (mkModuleSet "" [], Some (UnknownSetError modSetName))
  | Some modSet => (modSet, None)
  end.

(** ** The file system and [filepath.Walk]

    What [filepath.Walk] finds under a path is a tree.  An [entry] is what
    [os.Lstat] and, for a directory, the listing of its names give:
    - [File name content]: lstat succeeds and reports no directory (a regular
      file, or a symbolic link, which Walk does not follow); [content] is the
      result of [ioutil.ReadFile] on it;
    - [Dir name listing names]: lstat reports a directory; [listing] is the
      error of reading its names, if any; [names] are its entries in the
      lexical order in which Walk visits them;
    - [NoStat name err]: lstat on the name fails. *)
Inductive readResult : Type :=
| ReadError (msg : string)
| Content (bytes : string).

#[local] Unset Elimination Schemes.
Inductive entry : Type :=
| File (name : string) (content : readResult)
| Dir (name : string) (listing : option string) (names : list entry)
| NoStat (name : string) (err : string).
#[local] Set Elimination Schemes.

Definition entry_name (e : entry) : string :=
  match e with
  | File name _ | Dir name _ _ | NoStat name _ => name
  end.

Definition IsDir (e : entry) : bool :=
  match e with Dir _ _ _ => true | _ => false end.

(** [ioutil.ReadFile] on the path of an entry: reading a directory fails. *)
Definition ReadFile (filePath : string) (e : entry) : readResult :=
  match e with
  | File _ content => content
  | Dir _ _ _ => ReadError ("read " +:+ filePath +:+ ": is a directory")
  | NoStat _ err => ReadError err
  end.

Module filepath.

(** [filepath.Base] on a system whose separator is [/]: trailing slashes are
  stripped and the last element is returned; the empty path gives ".", a
  path of slashes only gives "/". *)
Fixpoint stripTrailingSlashes (path : string) : string :=
match path with
| EmptyString => EmptyString
| String c rest =>
    match stripTrailingSlashes rest with
    | EmptyString => if Ascii.eqb c "/" then EmptyString else String c EmptyString
    | r => String c r
    end
end.

Fixpoint hasSeparator (path : string) : bool :=
match path with
| EmptyString => false
| String c rest => Ascii.eqb c "/" || hasSeparator rest
end.

Fixpoint lastElement (path : string) : string :=
match path with
| EmptyString => EmptyString
| String c rest =>
    if hasSeparator rest then lastElement rest
    else if Ascii.eqb c "/" then rest else path
end.

Definition Base (path : string) : string :=
if decide (path = "") then "."
else
  let path := lastElement (stripTrailingSlashes path) in
  if decide (path = "") then "/" else path.

Section Walk.
Context {S : Type}.

(** [filepath.Join] of the directory path and a name of its listing; the
  library function (it also cleans the path) is a parameter. *)
Variable Join : string → string → string.

(** The callback: path, the entry in place of [fs.FileInfo], the error
  Walk passes in. *)
Variable walkFn : string → entry → option error → S → option error * S.

(** [walk]; Walk and the loop below call it only where lstat succeeded. *)
Fixpoint walk (path : string) (info : entry) (s : S) {struct info}
  : option error * S :=
match info with
| File _ _ => walkFn path info None s
| NoStat _ err => walkFn path info (Some (OSError err)) s
| Dir _ listing names =>
    let err := OSError <$> listing in
    let '(err1, s1) := walkFn path info err s in
    match err, err1 with
    | None, None =>
        (fix loop (names : list entry) (s : S) {struct names}
             : option error * S :=
           match names with
           | [] => (None, s)
           | child :: rest =>
               let filename := Join path (entry_name child) in
               match child with
               | NoStat _ err =>
                   match walkFn filename child (Some (OSError err)) s with
                   | (Some e, s') =>
                       if decide (e ≠ SkipDir) then (Some e, s')
                       else loop rest s'
                   | (None, s') => loop rest s'
                   end
               | _ =>
                   match walk filename child s with
                   | (Some e, s') =>
                       if negb (IsDir child) || bool_decide (e ≠ SkipDir)
                       then (Some e, s')
                       else loop rest s'
                   | (None, s') => loop rest s'
                   end
               end
           end) names s1
    | _, _ => (err1, s1)
    end
end.

(** The loop of [walk] over the names of a directory, by name. *)
Definition walkNames (path : string) : list entry → S → option error * S :=
fix loop (names : list entry) (s : S) {struct names} : option error * S :=
  match names with
  | [] => (None, s)
  | child :: rest =>
      let filename := Join path (entry_name child) in
      match child with
      | NoStat _ err =>
          match walkFn filename child (Some (OSError err)) s with
          | (Some e, s') =>
              if decide (e ≠ SkipDir) then (Some e, s')
              else loop rest s'
          | (None, s') => loop rest s'
          end
      | _ =>
          match walk filename child s with
          | (Some e, s') =>
              if negb (IsDir child) || bool_decide (e ≠ SkipDir)
              then (Some e, s')
              else loop rest s'
          | (None, s') => loop rest s'
          end
      end
  end.

(** [Walk] *)
Definition Walk (root : string) (tree : entry) (s : S) : option error * S :=
let '(err, s') :=
  match tree with
  | NoStat _ err => walkFn root tree (Some (OSError err)) s
  | _ => walk root tree s
  end in
match err with
| Some SkipDir => (None, s')
| _ => (err, s')
end.

End Walk.

End filepath.

(** ** The module path index *)

(** What the closure [findGoMod] changes: the map it fills and the lines it
    prints on standard output. *)
Record walkState := mkWalkState {
  modPathMap : ModulePathMap;
  stdout : list string
}.

Section PathIndex.

(** [filepath.Join] and [modfile.ModulePath] (the module path that the
    bytes of a go.mod file declare) are library functions. *)
Variable Join : string → string → string.
Variable modfile_ModulePath : string → string.

Definition findGoMod (versionCfg : versionConfig)
    (filePath : string) (info : entry) (err : option error) (st : walkState)
    : option error * walkState :=
  match err with
  | Some err =>
      (None,
       mkWalkState (modPathMap st)
         (stdout st ++
            ["Warning: file could not be read during filepath.Walk(): "
               +:+ Error err]))
  | None =>
      if decide (filepath.Base filePath = "go.mod") then
        match ReadFile filePath info with
        | ReadError msg => (Some (OSError msg), st)
        | Content mod_ =>
            let modPath := modfile_ModulePath mod_ in
            let modFilePath := filePath in
            let excludedModules := getExcludedModules versionCfg in
            if decide (modPath ∈ excludedModules) then (None, st)
            else
              (None,
               mkWalkState (<[modPath := modFilePath]> (modPathMap st))
                 (stdout st))
        end
      else (None, st)
  end.

(** [BuildModulePathMap]: the map (nil next to an error), the error and
    what was printed. *)
Definition BuildModulePathMap (versionCfg : versionConfig)
    (root : string) (tree : entry)
    : option ModulePathMap * option error * list string :=
  match filepath.Walk Join (findGoMod versionCfg) root tree
          (mkWalkState ∅ []) with
  | (Some err, st) => (None, Some err, stdout st)
  | (None, st) => (Some (modPathMap st), None, stdout st)
  end.

End PathIndex.

(** ** The configuration file and the facade *)

(** What viper does with the versioning file of a given name: reading the
    file fails, decoding what was read fails, or a configuration comes out. *)
Inductive viperRun : Type :=
| ReadInConfigFails (err : string)
| UnmarshalFails (err : string)
| Unmarshalled (versionCfg : versionConfig).

(** The zero value [versionConfig{}] *)
Definition versionConfig_zero : versionConfig := mkVersionConfig ∅ [].

(** The zero value [ModuleVersioning{}] *)
Definition ModuleVersioning_zero : ModuleVersioning := mkModuleVersioning ∅ ∅ ∅.

(** [readVersioningFile].  The settings the function derives from the file
    name (configuration path, name and type) only feed viper, whose outcome
    for the file name is [viper versioningFilename]. *)
Definition readVersioningFile (viper : string → viperRun)
    (versioningFilename : string) : versionConfig * option error :=
  match viper versioningFilename with
  | ReadInConfigFails err =>
      (versionConfig_zero,
       Some (Wrapped "error reading versionsConfig file" (OSError err)))
  | UnmarshalFails err =>
      (versionConfig_zero,
       Some (Wrapped "unable to unmarshal versionsConfig" (OSError err)))
  | Unmarshalled versionCfg => (versionCfg, None)
  end.

Section Facade.

Variable Join : string → string → string.
Variable modfile_ModulePath : string → string.
Variable range : ModuleSetMap → list (string * ModuleSet).
Variable viper : string → viperRun.

(** [NewModuleVersioningInfo]; [tree] is what the file system holds at
    [repoRoot].  The result carries what was printed.  A field of
    [ModuleVersioning] that holds a nil map reads as the empty map. *)
Definition NewModuleVersioningInfo
    (versioningFilename : string) (repoRoot : string) (tree : entry)
    : ModuleVersioning * option error * list string :=
  let '(vCfg, _) := readVersioningFile viper versioningFilename in
  match buildModuleSetsMap vCfg with
  | (_, Some err) =>
      (ModuleVersioning_zero,
       Some (Wrapped "Error building module set map for NewModuleVersioningInfo" err),
       [])
  | (modSetMap, None) =>
      match buildModuleMap range vCfg with
      | (_, Some err) =>
          (ModuleVersioning_zero,
           Some (Wrapped "Error building module info map for NewModuleVersioningInfo" err),
           [])
      | (modInfoMap, None) =>
          match BuildModulePathMap Join modfile_ModulePath vCfg repoRoot tree with
          | (_, Some err, out) =>
              (ModuleVersioning_zero,
               Some (Wrapped "Error building module path map for NewModuleVersioningInfo" err),
               out)
          | (modPathMap, None, out) =>
              (mkModuleVersioning modSetMap (default ∅ modPathMap)
                 (default ∅ modInfoMap),
               None, out)
          end
      end
  end.

End Facade.

(** ** The order in which Walk visits a tree

    [visits Join path e] lists, in the order of the walk, every path that
    Walk hands to its callback below [path], with the entry found there: the
    entry itself and, for a directory whose names could be listed, the visits
    of its entries. *)
Fixpoint visits (Join : string → string → string) (path : string) (e : entry)
    {struct e} : list (string * entry) :=
  (path, e) ::
  match e with
  | Dir _ None names =>
      (fix visits_names (names : list entry) : list (string * entry) :=
         match names with
         | [] => []
         | child :: rest =>
             visits Join (Join path (entry_name child)) child ++ visits_names rest
         end) names
  | _ => []
  end.

(** The visits below a directory, by name. *)
Definition visitsNames (Join : string → string → string) (path : string)
    : list entry → list (string * entry) :=
  fix visits_names (names : list entry) : list (string * entry) :=
    match names with
    | [] => []
    | child :: rest =>
        visits Join (Join path (entry_name child)) child ++ visits_names rest
    end.

(** The error Walk passes to its callback at an entry: lstat failed, or the
    names of the directory could not be listed. *)
Definition walkError (e : entry) : option error :=
  match e with
  | NoStat _ err => Some (OSError err)
  | Dir _ (Some err) _ => Some (OSError err)
  | _ => None
  end.

(** A callback run over a list of visits, up to its first error. *)
Fixpoint runVisits {S : Type}
    (walkFn : string → entry → option error → S → option error * S)
    (vs : list (string * entry)) (s : S) : option error * S :=
  match vs with
  | [] => (None, s)
  | (path, e) :: rest =>
      match walkFn path e (walkError e) s with
      | (Some err, s') => (Some err, s')
      | (None, s') => runVisits walkFn rest s'
      end
  end.

(** A visit of a go.mod that lstat found: the module path its bytes declare,
    or the error of reading it. *)
Definition isManifest (v : string * entry) : bool :=
  bool_decide (walkError v.2 = None) && bool_decide (filepath.Base v.1 = "go.mod").

Definition unreadableManifest (v : string * entry) : option string :=
  if isManifest v then
    match ReadFile v.1 v.2 with ReadError msg => Some msg | Content _ => None end
  else None.

(** The warning printed for a visit on which Walk reports an error. *)
Definition walkWarning (v : string * entry) : option string :=
  (λ err, "Warning: file could not be read during filepath.Walk(): " +:+ Error err)
    <$> walkError v.2.

(** The entry of the index a visit contributes: module path and file path of
    a readable go.mod whose module path is not excluded. *)
Definition manifestEntry (modfile_ModulePath : string → string)
    (versionCfg : versionConfig) (v : string * entry) : option (string * string) :=
  if isManifest v then
    match ReadFile v.1 v.2 with
    | Content mod_ =>
        if decide (modfile_ModulePath mod_ ∈ getExcludedModules versionCfg)
        then None else Some (modfile_ModulePath mod_, v.1)
    | ReadError _ => None
    end
  else None.

(** The index that holds the given entries, later ones replacing earlier ones
    of the same module path. *)
Definition indexOf (entries : list (string * string)) : ModulePathMap :=
  foldl (λ m kv, <[kv.1 := kv.2]> m) ∅ entries.

(** ** Stand-ins of the library functions, for examples

    [joinSlash] joins as [filepath.Join] does for a clean directory path
    other than the root of the file system and a plain name.
    [declaredModulePath] reads the module path as [modfile.ModulePath] does
    from a go.mod whose first line is the module directive without quotes
    or comment. *)
Definition joinSlash (dir name : string) : string := dir +:+ "/" +:+ name.

Fixpoint firstLine (s : string) : string :=
  match s with
  | EmptyString => EmptyString
  | String c rest =>
      if Ascii.eqb c "010" then EmptyString else String c (firstLine rest)
  end.

Definition declaredModulePath (mod_ : string) : string :=
  strings.TrimPrefix (firstLine mod_) "module ".

(** ** What the errors of [buildModuleMap] say about the configuration *)

(** The module paths of the given sets, set after set. *)
Definition allModules (sets : list (string * ModuleSet)) : list ModulePath :=
  sets ≫= (λ set, Modules set.2).

(** An error of [buildModuleMap] names what is wrong in the configuration: a
    module path and two set names in both of whose lists it occurs, or a
    module path of some set that is also excluded. *)
Definition conflictError (versionCfg : versionConfig) (err : error) : Prop :=
  match err with
  | DuplicateModuleError modPath firstSet secondSet =>
      ∃ ms1 ms2,
        ModuleSets versionCfg !! firstSet = Some ms1 ∧
        ModuleSets versionCfg !! secondSet = Some ms2 ∧
        modPath ∈ Modules ms1 ∧ modPath ∈ Modules ms2
  | ExcludedModuleConflictError modPath =>
      modPath ∈ ExcludedModules versionCfg ∧
      ∃ setName ms,
        ModuleSets versionCfg !! setName = Some ms ∧ modPath ∈ Modules ms
  | _ => False
  end.

(** No module path of a set is excluded. *)
Definition noExcludedModule (versionCfg : versionConfig) : Prop :=
  ∀ setName ms modPath,
    ModuleSets versionCfg !! setName = Some ms →
    modPath ∈ Modules ms → modPath ∉ ExcludedModules versionCfg.

(** No module path occurs twice in the lists of the sets, neither in one
    list nor in two. *)
Definition noDuplicateModule (versionCfg : versionConfig) : Prop :=
  NoDup (allModules (map_to_list (ModuleSets versionCfg))).

(** A number as [semver.parseInt] accepts it: a digit, then digits, and
    nothing after a leading zero. *)
Definition intString (t : string) : Prop :=
  ∃ c d, t = String c d ∧ semver.isDigit c = true
         ∧ semver.countWhile semver.isDigit d = strings.len d
         ∧ (c = "0"%char → d = "").

(** ** Names of directory entries *)

(** A name as a directory listing gives it: not empty and without a
    separator. *)
Definition plainName (name : string) : Prop :=
  name ≠ "" ∧ filepath.hasSeparator name = false.

(** Every entry below [e] has such a name. *)
Fixpoint plainBelow (e : entry) : Prop :=
  match e with
  | Dir _ _ names =>
      (fix all (names : list entry) : Prop :=
         match names with
         | [] => True
         | child :: rest =>
             plainName (entry_name child) ∧ plainBelow child ∧ all rest
         end) names
  | _ => True
  end.

Definition plainNames : list entry → Prop :=
  fix all (names : list entry) : Prop :=
    match names with
    | [] => True
    | child :: rest =>
        plainName (entry_name child) ∧ plainBelow child ∧ all rest
    end.

(** ** The root of the repository *)

(** What [os.Stat] gives: no error, an error for which
    [errors.Is(err, os.ErrNotExist)] holds, or another error. *)
Inductive statResult : Type :=
| StatOk
| StatNotExist (msg : string)
| StatError (msg : string).

(** What [os.Getwd] gives. *)
Inductive getwdResult : Type :=
| GetwdError (msg : string)
| Cwd (dir : string).

(** The errors of [FindRepoRoot] and [ChangeToRepoRoot]: an error of the
    operating system handed on as it is, the error built with [fmt.Errorf]
    where no repository encloses the working directory, and the latter two
    wrapped by [ChangeToRepoRoot]. *)
Inductive rootError : Type :=
| RootOSError (msg : string)
| NoEnclosingRepository (start : string)
| UnableToFindRepoRoot (cause : rootError).

Fixpoint rootErrorMessage (e : rootError) : string :=
  match e with
  | RootOSError msg => msg
  | NoEnclosingRepository start =>
      "unable to find git repository enclosing working dir " +:+ start
  | UnableToFindRepoRoot cause =>
      "unable to find repo root: " +:+ rootErrorMessage cause
  end.

Section RepoRoot.

(** [filepath.Join] and [filepath.Dir] are library functions; [Getwd] and
    [Stat] are what the operating system answers. *)
Variable Join : string → string → string.
Variable Dir_ : string → string.
Variable Getwd : getwdResult.
Variable Stat : string → statResult.

(** The directories above [dir], from [dir] itself upwards, have no [.git]
    for [n] steps, and none of the parents reached ends in a separator. *)
Definition climbs (dir : string) (n : nat) : Prop :=
  ∀ k, k < n →
    (∃ msg, Stat (Join (Nat.iter k Dir_ dir) ".git") = StatNotExist msg)
    ∧ strings.HasSuffix (Nat.iter (S k) Dir_ dir) "/" = false.

(** The loop of [FindRepoRoot].  The source loops without a bound; [fuel]
    bounds the number of turns, and [None] says that the bound was reached. *)
Fixpoint FindRepoRoot_loop (fuel : nat) (start dir : string)
    : option (string * option rootError) :=
  match fuel with
  | O => None
  | S fuel' =>
      match Stat (Join dir ".git") with
      | StatNotExist _ =>
          let dir := Dir_ dir in
          if strings.HasSuffix dir "/" then
            Some ("", Some (NoEnclosingRepository start))
          else FindRepoRoot_loop fuel' start dir
      | StatError msg => Some ("", Some (RootOSError msg))
      | StatOk => Some (dir, None)
      end
  end.

(** [FindRepoRoot] *)
Definition FindRepoRoot (fuel : nat) : option (string * option rootError) :=
  match Getwd with
  | GetwdError msg => Some ("", Some (RootOSError msg))
  | Cwd start => FindRepoRoot_loop fuel start start
  end.

(** [ChangeToRepoRoot]: the result, the lines printed and the directories
    handed to [os.Chdir], whose error the source drops. *)
Definition ChangeToRepoRoot (fuel : nat)
    : option (string * option rootError * list string * list string) :=
  match FindRepoRoot fuel with
  | None => None
  | Some (_, Some err) => Some ("", Some (UnableToFindRepoRoot err), [], [])
  | Some (repoRoot, None) =>
      Some (repoRoot, None, ["Changing to root directory..."], [repoRoot])
  end.

End RepoRoot.

(** ** The first conflict of a configuration *)

(** The module paths of the given sets, each with the name of its set, in
    the order in which the two loops of [buildModuleMap] meet them. *)
Definition occurrences (sets : list (string * ModuleSet))
    : list (ModulePath * string) :=
  sets ≫= (λ set, (λ m, (m, set.1)) <$> Modules set.2).

(** The map [modMap] records the module paths met so far: a module path is
    a key, with a set name, exactly if it was met with that set name. *)
Definition recorded (modMap : ModuleInfoMap)
    (met : list (ModulePath * string)) : Prop :=
  ∀ m setName,
    (m, setName) ∈ met ↔
    ∃ info, modMap !! m = Some info ∧ ModuleSetName info = setName.

(** After the occurrences [met], none of them a repeat and none excluded,
    the occurrence of [m] in [setName] is a conflict with error [err]: [m]
    was met before, in [firstSet], and the error names [m], [firstSet] and
    [setName]; or [m] was not met before and is excluded, and the error
    names [m]. *)
Definition conflictAfter (versionCfg : versionConfig)
    (met : list (ModulePath * string)) (m : ModulePath) (setName : string)
    (err : error) : Prop :=
  NoDup (met.*1)
  ∧ (∀ x, x ∈ met.*1 → x ∉ ExcludedModules versionCfg)
  ∧ ((∃ firstSet,
        (m, firstSet) ∈ met ∧ err = DuplicateModuleError m firstSet setName)
     ∨ ((m ∉ met.*1) ∧ m ∈ ExcludedModules versionCfg
        ∧ err = ExcludedModuleConflictError m)).

(** [err] is the error of the first conflict among the occurrences [occ]:
    the first occurrence that repeats an earlier one or is excluded. *)
Definition firstConflict (versionCfg : versionConfig)
    (occ : list (ModulePath * string)) (err : error) : Prop :=
  ∃ before m setName after,
    occ = before ++ (m, setName) :: after
    ∧ conflictAfter versionCfg before m setName err.

(** [m] is the only module path listed more than once: no list of a set
    has a module path twice, and a module path in the lists of two different
    sets is [m], the sets being [s1] and [s2]. *)
Definition onlyDuplicate (versionCfg : versionConfig) (m : ModulePath)
    (s1 s2 : string) : Prop :=
  (∀ s ms, ModuleSets versionCfg !! s = Some ms → NoDup (Modules ms))
  ∧ (∀ m' a b msa msb,
       a ≠ b →
       ModuleSets versionCfg !! a = Some msa →
       ModuleSets versionCfg !! b = Some msb →
       m' ∈ Modules msa → m' ∈ Modules msb →
       m' = m ∧ (a = s1 ∧ b = s2 ∨ a = s2 ∧ b = s1)).

(** [m] is the only module path of a set that is excluded. *)
Definition onlyExcluded (versionCfg : versionConfig) (m : ModulePath) : Prop :=
  ∀ m' s ms,
    ModuleSets versionCfg !! s = Some ms → m' ∈ Modules ms →
    m' ∈ ExcludedModules versionCfg → m' = m.

(** ** The joins of a walk *)

(** Every join that the walk of [e] at [path] makes, of the path of a
    directory it lists and the name of an entry, puts a slash between the
    two.  [filepath.Join] does so for a clean directory path other than [.]
    and the root of the file system, and a plain name other than [.] and
    [..]; at other arguments it cleans the result, and nothing is asked of
    it there. *)
Fixpoint slashJoined (Join : string → string → string) (path : string)
    (e : entry) {struct e} : Prop :=
  match e with
  | Dir _ None names =>
      (fix all (names : list entry) : Prop :=
         match names with
         | [] => True
         | child :: rest =>
             Join path (entry_name child) = path +:+ "/" +:+ entry_name child
             ∧ slashJoined Join (path +:+ "/" +:+ entry_name child) child
             ∧ all rest
         end) names
  | _ => True
  end.

Definition slashJoinedNames (Join : string → string → string) (path : string)
    : list entry → Prop :=
  fix all (names : list entry) : Prop :=
    match names with
    | [] => True
    | child :: rest =>
        Join path (entry_name child) = path +:+ "/" +:+ entry_name child
        ∧ slashJoined Join (path +:+ "/" +:+ entry_name child) child
        ∧ all rest
    end.

(** * Properties *)

(** ** Slicing and the prefix and suffix tests *)
Section StringFacts.

Import strings.

Lemma sapp_cons (c : ascii) (a b : string) :
  String c a +:+ b = String c (a +:+ b).
Proof. reflexivity. Qed.

Lemma sapp_nil_l (b : string) : "" +:+ b = b.
Proof. reflexivity. Qed.

Lemma sapp_nil_r (a : string) : a +:+ "" = a.
Proof. induction a as [|c a IH]; [done|]. by rewrite sapp_cons, IH. Qed.

Lemma sapp_assoc (a b c : string) : (a +:+ b) +:+ c = a +:+ b +:+ c.
Proof. induction a as [|x a IH]; [done|]. by rewrite !sapp_cons, IH. Qed.

Lemma len_app (a b : string) : len (a +:+ b) = len a + len b.
Proof.
  unfold len. induction a as [|x a IH]; [done|].
  rewrite sapp_cons. simpl. by rewrite IH.
Qed.

Lemma substring_all (s : string) : String.substring 0 (String.length s) s = s.
Proof. induction s as [|c s IH]; [done|]. simpl. by rewrite IH. Qed.

Lemma substring_app_l (a b : string) :
  String.substring 0 (String.length a) (a +:+ b) = a.
Proof.
  induction a as [|c a IH]; simpl.
  - by destruct b.
  - by rewrite IH.
Qed.

Lemma substring_app_skip (a b : string) (k n : nat) :
  String.substring (String.length a + k) n (a +:+ b) = String.substring k n b.
Proof. induction a as [|c a IH]; [done|]. by rewrite sapp_cons. Qed.

Lemma substring_split (s : string) (n : nat) :
  n ≤ String.length s →
  String.substring 0 n s +:+ String.substring n (String.length s - n) s = s.
Proof.
  revert n. induction s as [|c s IH]; intros [|n] Hn; simpl in *; try lia.
  - done.
  - by rewrite sapp_nil_l, substring_all.
  - rewrite sapp_cons, IH; [done | lia].
Qed.

Lemma slice_app_l (a b : string) : slice (a +:+ b) 0 (len a) = a.
Proof. unfold slice, len. rewrite Nat.sub_0_r. apply substring_app_l. Qed.

Lemma slice_app_r (a b : string) : slice (a +:+ b) (len a) (len (a +:+ b)) = b.
Proof.
  unfold slice. rewrite len_app. unfold len.
  replace (String.length a + String.length b - String.length a)
    with (String.length b) by lia.
  rewrite <- (Nat.add_0_r (String.length a)) at 1.
  rewrite substring_app_skip. apply substring_all.
Qed.

Lemma HasPrefix_app (p s : string) : HasPrefix (p +:+ s) p = true.
Proof.
  unfold HasPrefix. rewrite slice_app_l, String.eqb_refl, len_app.
  rewrite andb_true_r. apply Nat.leb_le. lia.
Qed.

Lemma TrimPrefix_app (p s : string) : TrimPrefix (p +:+ s) p = s.
Proof. unfold TrimPrefix. by rewrite HasPrefix_app, slice_app_r. Qed.

(** The suffix test looks at the last [len x] bytes only. *)
Lemma HasSuffix_app_skip (a b x : string) :
  len x ≤ len b → HasSuffix (a +:+ b) x = HasSuffix b x.
Proof.
  intros Hx. unfold HasSuffix, slice. rewrite !len_app.
  assert ((len x <=? len a + len b)%nat = true) as -> by (apply Nat.leb_le; lia).
  assert ((len x <=? len b)%nat = true) as -> by (by apply Nat.leb_le).
  replace (len a + len b - len x) with (len a + (len b - len x)) by lia.
  replace (len a + len b - (len a + (len b - len x)))
    with (len b - (len b - len x)) by lia.
  unfold len at 1. by rewrite substring_app_skip.
Qed.

Lemma HasSuffix_refl (x : string) : HasSuffix x x = true.
Proof.
  unfold HasSuffix, slice. rewrite Nat.leb_refl, Nat.sub_diag, Nat.sub_0_r.
  unfold len. by rewrite substring_all, String.eqb_refl.
Qed.

Lemma HasSuffix_app (s x : string) : HasSuffix (s +:+ x) x = true.
Proof. rewrite HasSuffix_app_skip by done. apply HasSuffix_refl. Qed.

Lemma TrimSuffix_app (s x : string) : TrimSuffix (s +:+ x) x = s.
Proof.
  unfold TrimSuffix. rewrite HasSuffix_app. unfold slice.
  rewrite len_app, Nat.sub_0_r.
  replace (len s + len x - len x) with (len s) by lia.
  apply substring_app_l.
Qed.

Lemma HasPrefix_inv (s p : string) :
  HasPrefix s p = true → s = p +:+ TrimPrefix s p.
Proof.
  intros H. unfold TrimPrefix. rewrite H.
  unfold HasPrefix in H. apply andb_true_iff in H as [Hlen Heq].
  apply Nat.leb_le in Hlen. apply String.eqb_eq in Heq.
  unfold slice in *. rewrite Nat.sub_0_r in Heq.
  rewrite <- Heq at 1. symmetry. by apply substring_split.
Qed.

Lemma HasSuffix_inv (s x : string) :
  HasSuffix s x = true → s = TrimSuffix s x +:+ x.
Proof.
  intros H. unfold TrimSuffix. rewrite H.
  unfold HasSuffix in H. apply andb_true_iff in H as [Hlen Heq].
  apply Nat.leb_le in Hlen. apply String.eqb_eq in Heq.
  unfold slice in *. rewrite Nat.sub_0_r.
  replace (len s - (len s - len x)) with (len x) in Heq by lia.
  rewrite <- Heq at 2.
  pose proof (substring_split s (len s - len x)) as Hs.
  unfold len in *.
  replace (String.length s - (String.length s - String.length x))
    with (String.length x) in Hs by lia.
  symmetry. apply Hs. lia.
Qed.

End StringFacts.

(** ** Tag names from file paths *)
Section TagNames.

Import strings.

(** The conversion of an accepted path, in terms of what follows the
    root in it. *)
Lemma moduleFilePathToTagName_under_root (repoRoot rest : string) :
  HasSuffix (repoRoot +:+ "/" +:+ rest) "go.mod" = true →
  moduleFilePathToTagName (repoRoot +:+ "/" +:+ rest) repoRoot =
    (if decide (TrimSuffix rest "/go.mod" = "go.mod") then repoRootTag
     else TrimSuffix rest "/go.mod", None).
Proof.
  intros Hsuf. unfold moduleFilePathToTagName.
  rewrite <- (sapp_assoc repoRoot "/" rest) in *.
  rewrite HasPrefix_app, Hsuf, TrimPrefix_app. simpl.
  by destruct (decide _).
Qed.

(** A go.mod in a directory [dir] below the root converts to [dir], unless
    the directory is itself called go.mod. *)
Lemma moduleFilePathToTagName_dir (repoRoot dir : string) :
  dir ≠ "go.mod" →
  moduleFilePathToTagName (repoRoot +:+ "/" +:+ dir +:+ "/go.mod") repoRoot
    = (dir, None).
Proof.
  intros Hdir. rewrite moduleFilePathToTagName_under_root.
  - rewrite TrimSuffix_app. by destruct (decide _).
  - rewrite <- !sapp_assoc.
    rewrite (HasSuffix_app_skip _ "/go.mod" "go.mod") by (cbv; lia).
    reflexivity.
Qed.

(** The go.mod at the root converts to the root tag. *)
Lemma moduleFilePathToTagName_root (repoRoot : string) :
  moduleFilePathToTagName (repoRoot +:+ "/go.mod") repoRoot = (repoRootTag, None).
Proof.
  change (repoRoot +:+ "/go.mod") with (repoRoot +:+ "/" +:+ "go.mod").
  rewrite moduleFilePathToTagName_under_root; [done|].
  rewrite <- sapp_assoc. apply HasSuffix_app.
Qed.

(** An accepted path is the root, a slash, and a rest that the conversion
    works on. *)
Lemma moduleFilePathToTagName_accepted (modFilePath repoRoot : string)
    (tag : ModuleTagName) :
  moduleFilePathToTagName modFilePath repoRoot = (tag, None) →
  ∃ rest,
    modFilePath = repoRoot +:+ "/" +:+ rest ∧
    HasSuffix modFilePath "go.mod" = true ∧
    tag = (if decide (TrimSuffix rest "/go.mod" = "go.mod") then repoRootTag
           else TrimSuffix rest "/go.mod").
Proof.
  unfold moduleFilePathToTagName.
  destruct (HasPrefix modFilePath (repoRoot +:+ "/")) eqn:Hpre; [|done].
  destruct (HasSuffix modFilePath "go.mod") eqn:Hsuf; [|done].
  simpl. intros Htag.
  exists (TrimPrefix modFilePath (repoRoot +:+ "/")). split_and!.
  - rewrite <- sapp_assoc. by apply HasPrefix_inv.
  - done.
  - destruct (decide _); by simplify_eq.
Qed.

End TagNames.

(** C2, at the path of a go.mod inside a directory that is itself called
    go.mod: the conversion of [root/go.mod/go.mod] gives the root tag, not
    the directory go.mod. *)
Theorem moduleFilePathToTagName_dir_named_go_mod :
  moduleFilePathToTagName ("/r" +:+ "/" +:+ "go.mod" +:+ "/go.mod") "/r"
    = (repoRootTag, None)
  ∧ repoRootTag ≠ "go.mod".
Proof. split; [reflexivity | discriminate]. Qed.

(** C3 as stated fails: a go.mod in a directory called repoRootTag is not
    the manifest at the root, and its tag equals the root tag. *)
Lemma root_tag_iff_root_manifest_counterexample :
  ¬ (∀ modFilePath repoRoot tag,
       moduleFilePathToTagName modFilePath repoRoot = (tag, None) →
       (tag = repoRootTag ↔ modFilePath = repoRoot +:+ "/go.mod")).
Proof.
  intros H.
  specialize (H "/r/repoRootTag/go.mod" "/r" repoRootTag eq_refl) as [H _].
  specialize (H eq_refl). discriminate H.
Qed.

(** C3, amended: for an accepted path other than [root/go.mod/go.mod], the
    root tag is returned exactly for the go.mod at the root and for the
    go.mod in a directory called repoRootTag at the root; any other tag is
    the directory of the go.mod relative to the root, or the whole rest of
    the path where it does not end in [/go.mod]. *)
Theorem root_tag_iff_root_manifest (modFilePath repoRoot : string)
    (tag : ModuleTagName) :
  moduleFilePathToTagName modFilePath repoRoot = (tag, None) →
  modFilePath ≠ repoRoot +:+ "/go.mod/go.mod" →
  (tag = repoRootTag ↔
     modFilePath = repoRoot +:+ "/go.mod" ∨
     modFilePath = repoRoot +:+ "/repoRootTag/go.mod")
  ∧ (tag ≠ repoRootTag →
       modFilePath = repoRoot +:+ "/" +:+ tag +:+ "/go.mod" ∨
       (modFilePath = repoRoot +:+ "/" +:+ tag ∧
        strings.HasSuffix tag "/go.mod" = false)).
Proof.
  intros Hconv Hslip.
  destruct (moduleFilePathToTagName_accepted _ _ _ Hconv)
    as (rest & -> & Hsuf & Htag).
  destruct (strings.HasSuffix rest "/go.mod") eqn:Hrest.
  - (* the rest ends in /go.mod *)
    pose proof (HasSuffix_inv _ _ Hrest) as Hsplit.
    set (dir := strings.TrimSuffix rest "/go.mod") in *. clearbody dir.
    rewrite Hsplit. split.
    + split.
      * intros ->. destruct (decide (dir = "go.mod")) as [Hd|Hd].
        -- exfalso. apply Hslip. by rewrite Hsplit, Hd.
        -- right. by rewrite <- Htag.
      * intros [Heq|Heq].
        -- apply (inj (String.app repoRoot)) in Heq.
           change "/go.mod" with ("/" +:+ "go.mod") in Heq at 2.
           apply (inj (String.app "/")) in Heq.
           apply (f_equal strings.len) in Heq. rewrite len_app in Heq.
           unfold strings.len in Heq. simpl in Heq. lia.
        -- apply (inj (String.app repoRoot)) in Heq.
           change "/repoRootTag/go.mod" with ("/" +:+ "repoRootTag" +:+ "/go.mod") in Heq.
           apply (inj (String.app "/")) in Heq.
           assert (dir = "repoRootTag") as Hd.
           { rewrite <- (TrimSuffix_app dir "/go.mod"), Heq.
             by rewrite TrimSuffix_app. }
           rewrite Htag, Hd. by destruct (decide _).
    + intros Hne. left. destruct (decide (dir = "go.mod")); by subst.
  - (* the rest does not end in /go.mod *)
    assert (strings.TrimSuffix rest "/go.mod" = rest) as Hid.
    { unfold strings.TrimSuffix. by rewrite Hrest. }
    rewrite Hid in Htag. split.
    + split.
      * intros ->. destruct (decide (rest = "go.mod")) as [->|Hd]; [by left|].
        exfalso. subst rest.
        rewrite <- sapp_assoc in Hsuf.
        rewrite (HasSuffix_app_skip _ "repoRootTag" "go.mod") in Hsuf
          by (cbv; lia).
        discriminate Hsuf.
      * intros [Heq|Heq].
        -- apply (inj (String.app repoRoot)) in Heq.
           change "/go.mod" with ("/" +:+ "go.mod") in Heq.
           apply (inj (String.app "/")) in Heq. subst rest.
           by destruct (decide _).
        -- apply (inj (String.app repoRoot)) in Heq.
           change "/repoRootTag/go.mod" with ("/" +:+ "repoRootTag/go.mod") in Heq.
           apply (inj (String.app "/")) in Heq. subst rest.
           discriminate Hrest.
    + intros Hne. right. destruct (decide (rest = "go.mod")); by subst.
Qed.

Lemma root_tag_iff_root_manifest_witness :
  ("v1.2.3" = repoRootTag ↔
     "/r/v1.2.3/go.mod" = "/r" +:+ "/go.mod" ∨
     "/r/v1.2.3/go.mod" = "/r" +:+ "/repoRootTag/go.mod")
  ∧ ("v1.2.3" ≠ repoRootTag →
       "/r/v1.2.3/go.mod" = "/r" +:+ "/" +:+ "v1.2.3" +:+ "/go.mod" ∨
       ("/r/v1.2.3/go.mod" = "/r" +:+ "/" +:+ "v1.2.3" ∧
        strings.HasSuffix "v1.2.3" "/go.mod" = false)).
Proof.
  apply (root_tag_iff_root_manifest "/r/v1.2.3/go.mod" "/r" "v1.2.3").
  - reflexivity.
  - discriminate.
Defined.

(** ** Full tags *)

Lemma CombineModuleTagNamesAndVersion_loop_app
    (modTagNames : list ModuleTagName) (version : string) (acc : list string) :
  CombineModuleTagNamesAndVersion_loop modTagNames version acc
    = acc ++ (newFullTag version <$> modTagNames).
Proof.
  revert acc. induction modTagNames as [|t ts IH]; intros acc; simpl.
  - by rewrite app_nil_r.
  - rewrite IH. by rewrite <- app_assoc.
Qed.

Lemma CombineModuleTagNamesAndVersion_fmap
    (modTagNames : list ModuleTagName) (version : string) :
  CombineModuleTagNamesAndVersion modTagNames version
    = newFullTag version <$> modTagNames.
Proof. apply CombineModuleTagNamesAndVersion_loop_app. Qed.

(** C7: the result has one string per tag name, in the order of the input;
    the string at the place of the root tag is the version, the string at the
    place of any other tag name is the tag name, a slash and the version. *)
Theorem CombineModuleTagNamesAndVersion_spec
    (modTagNames : list ModuleTagName) (version : string) :
  length (CombineModuleTagNamesAndVersion modTagNames version)
    = length modTagNames
  ∧ (∀ (i : nat) (modTagName : ModuleTagName),
       modTagNames !! i = Some modTagName →
       CombineModuleTagNamesAndVersion modTagNames version !! i
         = Some (if decide (modTagName = repoRootTag) then version
                 else modTagName +:+ "/" +:+ version))
  ∧ CombineModuleTagNamesAndVersion [repoRootTag; "sdk/metric"] "v1.2.3"
      = ["v1.2.3"; "sdk/metric/v1.2.3"].
Proof.
  rewrite CombineModuleTagNamesAndVersion_fmap. split_and!.
  - apply length_fmap.
  - intros i t Hi. rewrite list_lookup_fmap, Hi. reflexivity.
  - reflexivity.
Qed.

(** ** File paths of module paths *)

Lemma modulePathsToFilePaths_loop_present
    (modPaths : list ModulePath) (modPathMap : ModulePathMap)
    (acc : list ModuleFilePath) :
  (∀ modPath, modPath ∈ modPaths → is_Some (modPathMap !! modPath)) →
  ∃ paths,
    modulePathsToFilePaths_loop modPaths modPathMap acc = (acc ++ paths, None)
    ∧ Some <$> paths = (modPathMap !!.) <$> modPaths.
Proof.
  revert acc. induction modPaths as [|m ms IH]; intros acc Hall; csimpl.
  - exists []. by rewrite app_nil_r.
  - destruct (Hall m) as [p Hp]; [by left|]. rewrite Hp.
    destruct (IH (acc ++ [p])) as (paths & Hrun & Hpaths).
    { intros x Hx. apply Hall. by right. }
    exists (p :: paths). split.
    + by rewrite Hrun, <- app_assoc.
    + csimpl. by rewrite Hpaths.
Qed.

Lemma modulePathsToFilePaths_loop_missing
    (before after : list ModulePath) (missing : ModulePath)
    (modPathMap : ModulePathMap) (acc : list ModuleFilePath) :
  (∀ modPath, modPath ∈ before → is_Some (modPathMap !! modPath)) →
  modPathMap !! missing = None →
  modulePathsToFilePaths_loop (before ++ missing :: after) modPathMap acc
    = ([], Some (UnknownModuleError missing)).
Proof.
  revert acc. induction before as [|m ms IH]; intros acc Hall Hmiss; simpl.
  - by rewrite Hmiss.
  - destruct (Hall m) as [p Hp]; [by left|]. rewrite Hp.
    apply IH; [|done]. intros x Hx. apply Hall. by right.
Qed.

(** C9: where a module path is missing from the map, the result is the
    error that names the first missing one, next to the empty slice, without
    the paths found before it; where none is missing, the result is the file
    paths of the module paths, in their order, and no error. *)
Theorem modulePathsToFilePaths_spec
    (modPaths : list ModulePath) (modPathMap : ModulePathMap) :
  (∀ before missing after,
     modPaths = before ++ missing :: after →
     (∀ modPath, modPath ∈ before → is_Some (modPathMap !! modPath)) →
     modPathMap !! missing = None →
     modulePathsToFilePaths modPaths modPathMap
       = ([], Some (UnknownModuleError missing)))
  ∧ ((∀ modPath, modPath ∈ modPaths → is_Some (modPathMap !! modPath)) →
     ∃ paths,
       modulePathsToFilePaths modPaths modPathMap = (paths, None)
       ∧ length paths = length modPaths
       ∧ ∀ i modPath, modPaths !! i = Some modPath →
           modPathMap !! modPath = paths !! i)
  ∧ modulePathsToFilePaths ["a"; "missing"; "b"]
      (<["a" := "/r/a/go.mod"]> (<["b" := "/r/b/go.mod"]> ∅))
      = ([], Some (UnknownModuleError "missing")).
Proof.
  split_and!.
  - intros before missing after -> Hall Hmiss.
    by apply modulePathsToFilePaths_loop_missing.
  - intros Hall.
    destruct (modulePathsToFilePaths_loop_present modPaths modPathMap [] Hall)
      as (paths & Hrun & Hpaths).
    exists paths. split_and!.
    + done.
    + apply (f_equal length) in Hpaths. by rewrite !length_fmap in Hpaths.
    + intros i m Hi.
      apply (f_equal (λ l, l !! i)) in Hpaths.
      rewrite !list_lookup_fmap, Hi in Hpaths. simpl in Hpaths.
      destruct (paths !! i) eqn:Hp; simpl in Hpaths; by simplify_eq.
  - reflexivity.
Qed.

(** ** Stable versions *)
Section Stable.

Import strings semver.

Lemma digit_test (c : ascii) :
  Ascii.ltb c "0" || Ascii.ltb "9" c = negb (isDigit c).
Proof. by destruct c as [[] [] [] [] [] [] [] []]. Qed.

Lemma countWhile_le (p : ascii → bool) (s : string) :
  countWhile p s ≤ String.length s.
Proof.
  induction s as [|c s IH]; simpl; [lia|]. destruct (p c); simpl; lia.
Qed.

Lemma countWhile_prefix (p : ascii → bool) (s : string) :
  countWhile p (String.substring 0 (countWhile p s) s)
    = len (String.substring 0 (countWhile p s) s).
Proof.
  unfold len. induction s as [|c s IH]; simpl; [done|].
  destruct (p c) eqn:Hc; simpl; [|done]. by rewrite Hc, IH.
Qed.

Lemma substring_none (n : nat) (s : string) : String.substring n 0 s = "".
Proof. revert n. induction s as [|c s IH]; intros [|n]; simpl; done. Qed.

Lemma scan_tail (p : ascii → bool) (c : ascii) (s : string) :
  scan p (String c s) 1 = S (countWhile p s).
Proof.
  unfold scan, slice, len. simpl.
  by rewrite Nat.sub_0_r, substring_all.
Qed.

Lemma parseInt_inv (v t rest : string) :
  parseInt v = Some (t, rest) → v = t +:+ rest ∧ intString t.
Proof.
  destruct v as [|c v']; [done|]. unfold parseInt.
  rewrite digit_test, scan_tail.
  destruct (isDigit c) eqn:Hc; [|done]. simpl negb. cbv iota.
  destruct (Ascii.eqb c "0" && negb _) eqn:Hzero; [done|].
  intros [= <- <-]. unfold slice, len. simpl.
  pose proof (countWhile_le isDigit v') as Hle. split.
  - rewrite sapp_cons. f_equal. symmetry. by apply substring_split.
  - exists c, (String.substring 0 (countWhile isDigit v') v'). split_and!.
    + done.
    + done.
    + apply countWhile_prefix.
    + intros ->. simpl in Hzero.
      destruct (countWhile isDigit v'); [apply substring_none|discriminate Hzero].
Qed.

Lemma parseInt_intString (t : string) :
  intString t → parseInt t = Some (t, "").
Proof.
  intros (c & d & -> & Hc & Hd & Hzero). unfold parseInt.
  rewrite digit_test, scan_tail, Hc, Hd. simpl negb. cbv iota.
  assert (Ascii.eqb c "0" && negb (len d =? 0)%nat = false) as ->.
  { destruct (Ascii.eqb_spec c "0") as [->|]; [|done].
    by rewrite Hzero. }
  unfold slice, len. simpl.
  by rewrite Nat.sub_diag, substring_all, substring_none.
Qed.

Lemma parse_tail_major (M m p v : string) (pv : parsed) :
  parse_tail M m p v = Some pv → major pv = M.
Proof.
  unfold parse_tail.
  destruct (if startsWith "-" v then _ else _) as [[pre v1]|]; [|done].
  destruct (if startsWith "+" v1 then _ else _) as [[bld v2]|]; [|done].
  destruct (decide _); [|done]. by intros [= <-].
Qed.

(** A version that parses is a [v], its major number, and a rest. *)
Lemma parse_major (v : string) (pv : parsed) :
  parse v = Some pv →
  ∃ rest, v = "v" +:+ major pv +:+ rest ∧ intString (major pv).
Proof.
  destruct v as [|c v1]; [done|]. unfold parse.
  destruct (Ascii.eqb_spec c "v") as [->|]; [|done]. simpl negb. cbv iota.
  destruct (parseInt v1) as [[M r1]|] eqn:HM; [|done].
  apply parseInt_inv in HM as [-> HM].
  assert (parsed_major : ∀ q, major q = M →
            ∃ rest, (String "v" (M +:+ r1)) = "v" +:+ major q +:+ rest
                    ∧ intString (major q)).
  { intros q ->. by exists r1. }
  destruct r1 as [|c2 v2]; [intros [= <-]; by apply parsed_major|].
  destruct (Ascii.eqb c2 "."); [|done]. simpl negb. cbv iota.
  destruct (parseInt v2) as [[m r2]|]; [|done].
  destruct r2 as [|c3 v3]; [intros [= <-]; by apply parsed_major|].
  destruct (Ascii.eqb c3 "."); [|done]. simpl negb. cbv iota.
  destruct (parseInt v3) as [[p r3]|]; [|done].
  intros Htail%parse_tail_major. by apply parsed_major.
Qed.

Lemma Major_parsed (v : string) (pv : parsed) :
  parse v = Some pv → Major v = "v" +:+ major pv.
Proof.
  intros Hp. unfold Major. rewrite Hp.
  destruct (parse_major _ _ Hp) as (rest & Hv & _).
  rewrite Hv at 1. rewrite <- sapp_assoc.
  change (1 + len (major pv)) with (len "v" + len (major pv)).
  rewrite <- len_app. apply slice_app_l.
Qed.

Lemma parse_major_only (M : string) :
  intString M → parse ("v" +:+ M) = Some (mkParsed M "0" "0" ".0.0" "" "").
Proof.
  intros HM. rewrite sapp_cons, sapp_nil_l. unfold parse. simpl.
  by rewrite (parseInt_intString _ HM).
Qed.

Lemma Compare_major_v1 (M : string) :
  intString M → Compare ("v" +:+ M) "v1" = compareInt M "1".
Proof.
  intros HM. unfold Compare. rewrite (parse_major_only _ HM).
  change (parse "v1") with (Some (mkParsed "1" "0" "0" ".0.0" "" "")).
  simpl. destruct (decide (compareInt M "1" ≠ 0%Z)) as [|Hz]; [done|].
  apply dec_stable in Hz. by rewrite Hz.
Qed.

Lemma decimal_from_positive (acc : N) (l : list ascii) :
  (1 ≤ acc)%N →
  (1 ≤ foldl (λ acc c, (10 * acc + digitValue c)%N) acc l)%N.
Proof.
  revert acc. induction l as [|c l IH]; intros acc Hacc; simpl; [done|].
  apply IH. lia.
Qed.

Lemma decimal_leading (c : ascii) (d : string) :
  (1 ≤ digitValue c)%N → (1 ≤ decimalValue (String c d))%N.
Proof.
  intros Hc. unfold decimalValue. simpl. apply decimal_from_positive. lia.
Qed.

Lemma digit_cases (c : ascii) :
  isDigit c = true →
  (c = "0"%char ∧ digitValue c = 0%N) ∨
  (c = "1"%char ∧ digitValue c = 1%N) ∨
  (c ≠ "0"%char ∧ c ≠ "1"%char ∧ Ascii.compare c "1" = Gt
   ∧ (2 ≤ digitValue c)%N).
Proof.
  destruct c as [[] [] [] [] [] [] [] []]; try discriminate; intros _;
    first [ left; split; reflexivity
          | right; left; split; reflexivity
          | right; right; split_and!;
            [discriminate | discriminate | reflexivity | by vm_compute] ].
Qed.

(** Against the major number 1, [compareInt] is the comparison of
    numbers. *)
Lemma compareInt_one (M : string) :
  intString M → (0 ≤ compareInt M "1")%Z ↔ (1 ≤ decimalValue M)%N.
Proof.
  intros (c & d & -> & Hc & Hd & Hzero).
  destruct (digit_cases c Hc) as [[-> Hv]|[[-> Hv]|(Hn0 & Hn1 & Hgt & Hv)]].
  - rewrite (Hzero eq_refl). by vm_compute.
  - assert (1 ≤ decimalValue (String "1" d))%N
      by (apply decimal_leading; lia).
    split; [done|intros _]. unfold compareInt, len.
    destruct (decide _) as [|_]; [done|].
    destruct d as [|c' d']; [done|]. by simpl.
  - assert (1 ≤ decimalValue (String c d))%N
      by (apply decimal_leading; lia).
    split; [done|intros _]. unfold compareInt, len.
    destruct (decide _) as [Heq|_]; [done|].
    destruct d as [|c' d']; simpl.
    + unfold String.ltb. simpl. by rewrite Hgt.
    + done.
Qed.

(** A version that parses is stable exactly if its major number is at
    least 1; one that does not parse is not stable. *)
Lemma IsStableVersion_parsed (v : string) (pv : parsed) :
  parse v = Some pv →
  IsStableVersion v = true ↔ (1 ≤ decimalValue (major pv))%N.
Proof.
  intros Hp. unfold IsStableVersion.
  destruct (parse_major _ _ Hp) as (_ & _ & HM).
  rewrite (Major_parsed _ _ Hp), (Compare_major_v1 _ HM).
  rewrite Z.leb_le. by apply compareInt_one.
Qed.

Lemma IsStableVersion_malformed (v : string) :
  parse v = None → IsStableVersion v = false.
Proof.
  intros Hp. unfold IsStableVersion, Major. by rewrite Hp.
Qed.

End Stable.

(** C8: [IsStableVersion] is a total function to [bool]; it is true exactly
    for the version strings that parse and whose major number is at least 1,
    whatever their minor and patch numbers, pre-release and build metadata;
    it is false for a string that is no version. *)
Theorem IsStableVersion_spec (v : string) :
  (IsStableVersion v = true ↔
     ∃ pv, semver.parse v = Some pv ∧ (1 ≤ decimalValue (semver.major pv))%N)
  ∧ (semver.parse v = None → IsStableVersion v = false)
  ∧ IsStableVersion "v1.0.0" = true
  ∧ IsStableVersion "v0.9.0" = false
  ∧ IsStableVersion "v2.0.0-rc1" = true.
Proof.
  split_and!; try reflexivity.
  - destruct (semver.parse v) as [pv|] eqn:Hp.
    + rewrite (IsStableVersion_parsed _ _ Hp). split.
      * intros Hm. by exists pv.
      * by intros (pv' & [= <-] & Hm).
    + rewrite (IsStableVersion_malformed _ Hp). split; [done|].
      by intros (pv' & ? & _).
  - apply IsStableVersion_malformed.
Qed.

(** ** The module info index *)
Section ModuleInfoIndex.

Variable versionCfg : versionConfig.

Lemma elem_of_getExcludedModules (modPath : ModulePath) :
  modPath ∈ getExcludedModules versionCfg ↔ modPath ∈ ExcludedModules versionCfg.
Proof.
  unfold getExcludedModules.
  assert (∀ (l : list string) (acc : gset string),
            modPath ∈ foldl (λ e m, {[m]} ∪ e) acc l ↔ modPath ∈ acc ∨ modPath ∈ l)
    as Hfold.
  { induction l as [|x l IH]; intros acc; simpl.
    - rewrite elem_of_nil. tauto.
    - rewrite IH, elem_of_union, elem_of_singleton, elem_of_cons. tauto. }
  rewrite Hfold, elem_of_empty. tauto.
Qed.

Lemma shouldExcludeModule_true (modPath : ModulePath) :
  shouldExcludeModule versionCfg modPath = true ↔
  modPath ∈ ExcludedModules versionCfg.
Proof.
  unfold shouldExcludeModule.
  by rewrite bool_decide_eq_true, elem_of_getExcludedModules.
Qed.

(** The loop over the modules of one set, where it succeeds. *)
Lemma buildModuleMap_modules_inr (setName : string) (moduleSet : ModuleSet)
    (modules : list ModulePath) (modMap modMap' : ModuleInfoMap) :
  buildModuleMap_modules versionCfg setName moduleSet modules modMap
    = inr modMap' →
  NoDup modules
  ∧ (∀ m, m ∈ modules → modMap !! m = None ∧ m ∉ ExcludedModules versionCfg)
  ∧ (∀ m, is_Some (modMap' !! m) ↔ is_Some (modMap !! m) ∨ m ∈ modules)
  ∧ (∀ m info, modMap' !! m = Some info →
       modMap !! m = Some info ∨ (m ∈ modules ∧ ModuleSetName info = setName)).
Proof.
  revert modMap. induction modules as [|x rest IH]; intros modMap; simpl.
  - intros [= <-]. split_and!.
    + constructor.
    + intros m Hm. by apply elem_of_nil in Hm.
    + intros m. rewrite elem_of_nil. tauto.
    + auto.
  - destruct (modMap !! x) as [info|] eqn:Hx; [done|].
    destruct (shouldExcludeModule versionCfg x) eqn:Hex; [done|].
    intros (Hnd & Hfresh & Hdom & Hinfo)%IH.
    assert (x ∉ ExcludedModules versionCfg) as Hnex.
    { rewrite <- shouldExcludeModule_true. by rewrite Hex. }
    assert (x ∉ rest) as Hxrest.
    { intros Hin. destruct (Hfresh x Hin) as [Hnone _].
      by rewrite lookup_insert_eq in Hnone. }
    split_and!.
    + by constructor.
    + intros m [->|Hm]%elem_of_cons; [done|].
      destruct (Hfresh m Hm) as [Hnone ?]. split; [|done].
      rewrite lookup_insert_ne in Hnone; [done|]. by intros ->.
    + intros m. rewrite Hdom, elem_of_cons.
      destruct (decide (x = m)) as [->|Hne].
      * rewrite lookup_insert_eq. split; [auto|]. intros _. left. by eexists.
      * rewrite lookup_insert_ne by done.
        split; [intros [?|?]; auto | intros [?|[?|?]]; [auto|congruence|auto]].
    + intros m info Hm. destruct (Hinfo m info Hm) as [Hold|[Hin Hname]].
      * destruct (decide (x = m)) as [->|Hne].
        -- rewrite lookup_insert_eq in Hold. injection Hold as <-.
           right. split; [by left|done].
        -- rewrite lookup_insert_ne in Hold by done. by left.
      * right. split; [by right|done].
Qed.

(** The loop over the modules of one set, where it fails. *)
Lemma buildModuleMap_modules_inl (setName : string) (moduleSet : ModuleSet)
    (modules : list ModulePath) (modMap : ModuleInfoMap) (err : error) :
  buildModuleMap_modules versionCfg setName moduleSet modules modMap
    = inl err →
  (∃ m, err = ExcludedModuleConflictError m ∧ m ∈ modules
        ∧ m ∈ ExcludedModules versionCfg)
  ∨ (∃ m firstSet, err = DuplicateModuleError m firstSet setName ∧ m ∈ modules
        ∧ ((∃ info, modMap !! m = Some info ∧ ModuleSetName info = firstSet)
           ∨ (firstSet = setName ∧ ¬ NoDup modules))).
Proof.
  revert modMap. induction modules as [|x rest IH]; intros modMap; simpl.
  - done.
  - destruct (modMap !! x) as [info|] eqn:Hx.
    { intros [= <-]. right. exists x, (ModuleSetName info).
      split_and!; [done|by left|]. left. by exists info. }
    destruct (shouldExcludeModule versionCfg x) eqn:Hex.
    { intros [= <-]. left. exists x. split_and!; [done|by left|].
      by apply shouldExcludeModule_true. }
    intros [(m & -> & Hm & Hexcl)|(m & s1 & -> & Hm & Hwhy)]%IH.
    + left. exists m. split_and!; [done|by right|done].
    + right. exists m, s1. split_and!; [done|by right|].
      destruct Hwhy as [(info & Hinfo & Hname)|[-> Hdup]].
      * destruct (decide (x = m)) as [->|Hne].
        -- rewrite lookup_insert_eq in Hinfo. injection Hinfo as <-.
           right. split; [done|]. by intros [? ?]%NoDup_cons.
        -- rewrite lookup_insert_ne in Hinfo by done. left. by exists info.
      * right. split; [done|]. by intros [? ?]%NoDup_cons.
Qed.

End ModuleInfoIndex.

Section ModuleInfoIndexSets.

Variable versionCfg : versionConfig.

Lemma allModules_cons (set : string * ModuleSet)
    (sets : list (string * ModuleSet)) :
  allModules (set :: sets) = Modules set.2 ++ allModules sets.
Proof. reflexivity. Qed.

Lemma elem_of_allModules (m : ModulePath) (sets : list (string * ModuleSet)) :
  m ∈ allModules sets ↔ ∃ setName ms, (setName, ms) ∈ sets ∧ m ∈ Modules ms.
Proof.
  unfold allModules. rewrite list_elem_of_bind. split.
  - intros ([s ms] & Hm & Hset). by exists s, ms.
  - intros (s & ms & Hset & Hm). by exists (s, ms).
Qed.

(** The loop over the sets, where it succeeds: no module path was met
    twice and none is excluded. *)
Lemma buildModuleMap_sets_inr (sets : list (string * ModuleSet))
    (modMap modMap' : ModuleInfoMap) :
  buildModuleMap_sets versionCfg sets modMap = inr modMap' →
  NoDup (allModules sets)
  ∧ (∀ m, m ∈ allModules sets →
       modMap !! m = None ∧ m ∉ ExcludedModules versionCfg)
  ∧ (∀ m, is_Some (modMap' !! m) ↔ is_Some (modMap !! m) ∨ m ∈ allModules sets).
Proof.
  revert modMap. induction sets as [|[setName moduleSet] rest IH];
    intros modMap; cbn [buildModuleMap_sets].
  - intros [= <-]. split_and!.
    + constructor.
    + intros m Hm. by apply elem_of_nil in Hm.
    + intros m. unfold allModules. simpl. rewrite elem_of_nil. tauto.
  - destruct (buildModuleMap_modules _ _ _ _ _) as [|modMap1] eqn:Hin; [done|].
    apply buildModuleMap_modules_inr in Hin as (Hnd1 & Hfresh1 & Hdom1 & _).
    intros (Hnd & Hfresh & Hdom)%IH.
    rewrite allModules_cons. simpl. split_and!.
    + apply NoDup_app. split_and!; [done| |done].
      intros m Hm1 Hm2. destruct (Hfresh m Hm2) as [Hnone _].
      assert (is_Some (modMap1 !! m)) as [? Hsome].
      { apply Hdom1. by right. }
      congruence.
    + intros m [Hm|Hm]%elem_of_app; [by apply Hfresh1|].
      destruct (Hfresh m Hm) as [Hnone ?]. split; [|done].
      destruct (modMap !! m) eqn:Hmm; [|done].
      assert (is_Some (modMap1 !! m)) as [? Hsome].
      { apply Hdom1. left. by eexists. }
      congruence.
    + intros m. rewrite Hdom, Hdom1, elem_of_app. tauto.
Qed.

(** The loop over the sets, where it fails: the error names a module path
    that is excluded, or one that was met before; [all] are the sets of
    the whole run. *)
Lemma buildModuleMap_sets_inl (all sets : list (string * ModuleSet))
    (modMap : ModuleInfoMap) (err : error) :
  (∀ set, set ∈ sets → set ∈ all) →
  (∀ m info, modMap !! m = Some info →
     ∃ ms, (ModuleSetName info, ms) ∈ all ∧ m ∈ Modules ms) →
  buildModuleMap_sets versionCfg sets modMap = inl err →
  (∃ m, err = ExcludedModuleConflictError m ∧ m ∈ allModules sets
        ∧ m ∈ ExcludedModules versionCfg)
  ∨ (∃ m firstSet secondSet ms1 ms2,
       err = DuplicateModuleError m firstSet secondSet
       ∧ (firstSet, ms1) ∈ all ∧ (secondSet, ms2) ∈ all
       ∧ m ∈ Modules ms1 ∧ m ∈ Modules ms2
       ∧ m ∈ allModules sets
       ∧ (is_Some (modMap !! m) ∨ ¬ NoDup (allModules sets))).
Proof.
  revert modMap. induction sets as [|[setName moduleSet] rest IH];
    intros modMap Hall Hinv; cbn [buildModuleMap_sets]; [done|].
  assert ((setName, moduleSet) ∈ all) as Hset by (apply Hall; by left).
  rewrite allModules_cons. simpl.
  destruct (buildModuleMap_modules _ _ _ _ _) as [err1|modMap1] eqn:Hin.
  - intros [= <-].
    apply buildModuleMap_modules_inl in Hin
      as [(m & -> & Hm & Hex)|(m & s1 & -> & Hm & Hwhy)].
    + left. exists m. split_and!; [done| |done]. apply elem_of_app. by left.
    + right. destruct Hwhy as [(info & Hinfo & <-)|[-> Hdup]].
      * destruct (Hinv m info Hinfo) as (ms1 & Hms1 & Hm1).
        exists m, (ModuleSetName info), setName, ms1, moduleSet.
        split_and!; try done.
        -- apply elem_of_app. by left.
        -- left. by exists info.
      * exists m, setName, setName, moduleSet, moduleSet.
        split_and!; try done.
        -- apply elem_of_app. by left.
        -- right. by intros (? & _)%NoDup_app.
  - apply buildModuleMap_modules_inr in Hin as (Hnd1 & Hfresh1 & Hdom1 & Hinfo1).
    intros Hrest. apply IH in Hrest
      as [(m & -> & Hm & Hex)|(m & s1 & s2 & ms1 & ms2 & -> & Hs1 & Hs2
                                 & Hm1 & Hm2 & Hm & Hwhy)].
    + left. exists m. split_and!; [done| |done]. apply elem_of_app. by right.
    + right. exists m, s1, s2, ms1, ms2. split_and!; try done.
      * apply elem_of_app. by right.
      * destruct Hwhy as [Hsome|Hdup].
        -- apply Hdom1 in Hsome as [Hold|Hnew]; [by left|].
           right. intros (_ & Hdisj & _)%NoDup_app. by apply (Hdisj m).
        -- right. by intros (_ & _ & ?)%NoDup_app.
    + intros set Hin'. apply Hall. by right.
    + intros m info Hm. destruct (Hinfo1 m info Hm) as [Hold|[Hnew Hname]].
      * by apply Hinv.
      * exists moduleSet. by rewrite Hname.
Qed.

(** Two different sets of the run share no module path if no module path
    is met twice. *)
Lemma allModules_NoDup_disjoint (sets : list (string * ModuleSet))
    (set1 set2 : string * ModuleSet) (m : ModulePath) :
  NoDup (allModules sets) →
  set1 ∈ sets → set2 ∈ sets → set1 ≠ set2 →
  m ∈ Modules set1.2 → m ∈ Modules set2.2 → False.
Proof.
  induction sets as [|set rest IH]; intros Hnd H1 H2 Hne Hm1 Hm2.
  - by apply elem_of_nil in H1.
  - rewrite allModules_cons in Hnd.
    apply NoDup_app in Hnd as (_ & Hdisj & Hrest).
    assert (∀ other, other ∈ rest → m ∈ Modules other.2 → m ∈ allModules rest)
      as Hin.
    { intros [s ms] ? ?. apply elem_of_allModules. by exists s, ms. }
    apply elem_of_cons in H1 as [->|H1], H2 as [->|H2].
    + done.
    + apply (Hdisj m Hm1). by apply (Hin set2).
    + apply (Hdisj m Hm2). by apply (Hin set1).
    + by apply IH.
Qed.

Section Run.

Variable range : ModuleSetMap → list (string * ModuleSet).
Hypothesis range_perm : range_ok range.

Lemma elem_of_range (setName : string) (ms : ModuleSet) :
  (setName, ms) ∈ range (ModuleSets versionCfg) ↔
  ModuleSets versionCfg !! setName = Some ms.
Proof. by rewrite (range_perm _), elem_of_map_to_list. Qed.

(** [buildModuleMap] returns an index or an error, never both; an error
    names a conflict of the configuration. *)
Lemma buildModuleMap_error (err : error) :
  (buildModuleMap range versionCfg).2 = Some err →
  buildModuleMap range versionCfg = (None, Some err)
  ∧ conflictError versionCfg err
  ∧ (noExcludedModule versionCfg →
       ∃ m s1 s2, err = DuplicateModuleError m s1 s2)
  ∧ (noDuplicateModule versionCfg →
       ∃ m, err = ExcludedModuleConflictError m).
Proof.
  unfold buildModuleMap.
  destruct (buildModuleMap_sets _ _ _) as [err'|modMap] eqn:Hrun; [|done].
  simpl. intros [= ->]. split; [done|].
  apply (buildModuleMap_sets_inl (range (ModuleSets versionCfg))) in Hrun
    as [(m & -> & Hm & Hex)|(m & s1 & s2 & ms1 & ms2 & -> & Hs1 & Hs2
                               & Hm1 & Hm2 & Hm & Hwhy)].
  - apply elem_of_allModules in Hm as (s & ms & Hs & Hm).
    apply elem_of_range in Hs. split_and!.
    + simpl. split; [done|]. by exists s, ms.
    + intros Hno. by destruct (Hno s ms m Hs Hm).
    + intros _. by exists m.
  - apply elem_of_range in Hs1, Hs2. split_and!.
    + simpl. by exists ms1, ms2.
    + intros _. by exists m, s1, s2.
    + intros Hnd. exfalso. destruct Hwhy as [[? Hsome]|Hdup].
      * by rewrite lookup_empty in Hsome.
      * apply Hdup. unfold noDuplicateModule, allModules in *.
        by rewrite (range_perm _).
  - done.
  - intros m info Hm. by rewrite lookup_empty in Hm.
Qed.

(** Where [buildModuleMap] succeeds, no module path occurs twice and no
    module path of a set is excluded. *)
Lemma buildModuleMap_success (modMap : option ModuleInfoMap) :
  buildModuleMap range versionCfg = (modMap, None) →
  noDuplicateModule versionCfg ∧ noExcludedModule versionCfg.
Proof.
  unfold buildModuleMap.
  destruct (buildModuleMap_sets _ _ _) as [err'|modMap'] eqn:Hrun; [done|].
  intros _. apply buildModuleMap_sets_inr in Hrun as (Hnd & Hfresh & _).
  split.
  - unfold noDuplicateModule, allModules in *. by rewrite <- (range_perm _).
  - intros s ms m Hs Hm. apply (Hfresh m).
    apply elem_of_allModules. exists s, ms. split; [|done].
    by apply elem_of_range.
Qed.

(** A module path in two different sets, or in a set and excluded, makes
    [buildModuleMap] fail. *)
Lemma buildModuleMap_fails :
  ¬ (noDuplicateModule versionCfg ∧ noExcludedModule versionCfg) →
  ∃ err, buildModuleMap range versionCfg = (None, Some err).
Proof.
  intros Hbad.
  destruct (buildModuleMap range versionCfg) as [modMap [err|]] eqn:Hrun.
  - exists err. rewrite <- Hrun.
    apply buildModuleMap_error. by rewrite Hrun.
  - destruct Hbad. by apply (buildModuleMap_success modMap).
Qed.

Lemma two_sets_duplicate (m : ModulePath) (s1 s2 : string)
    (ms1 ms2 : ModuleSet) :
  s1 ≠ s2 →
  ModuleSets versionCfg !! s1 = Some ms1 →
  ModuleSets versionCfg !! s2 = Some ms2 →
  m ∈ Modules ms1 → m ∈ Modules ms2 →
  ¬ noDuplicateModule versionCfg.
Proof.
  intros Hne Hs1 Hs2 Hm1 Hm2 Hnd.
  apply (allModules_NoDup_disjoint _ (s1, ms1) (s2, ms2) m Hnd);
    try done; try by apply elem_of_map_to_list.
  by intros [= ? ?].
Qed.

End Run.

End ModuleInfoIndexSets.

(** ** The first conflict met *)
Section FirstConflict.

Variable versionCfg : versionConfig.

Lemma occurrences_cons (set : string * ModuleSet)
    (sets : list (string * ModuleSet)) :
  occurrences (set :: sets)
    = ((λ m, (m, set.1)) <$> Modules set.2) ++ occurrences sets.
Proof. reflexivity. Qed.

Lemma elem_of_occurrences (m : ModulePath) (setName : string)
    (sets : list (string * ModuleSet)) :
  (m, setName) ∈ occurrences sets ↔
  ∃ ms, (setName, ms) ∈ sets ∧ m ∈ Modules ms.
Proof.
  unfold occurrences. rewrite list_elem_of_bind. split.
  - intros ([s ms] & Hin & Hset). apply list_elem_of_fmap in Hin as (x & [= -> ->] & Hx).
    by exists ms.
  - intros (ms & Hset & Hm). exists (setName, ms). split; [|done].
    apply list_elem_of_fmap. by exists m.
Qed.

Lemma recorded_fresh (modMap : ModuleInfoMap)
    (met : list (ModulePath * string)) (x : ModulePath) :
  recorded modMap met → modMap !! x = None → x ∉ met.*1.
Proof.
  intros Hrec Hx Hin. apply list_elem_of_fmap in Hin as ([m s] & -> & Hin).
  simpl in Hx. apply Hrec in Hin as (info & Hinfo & _). congruence.
Qed.

Lemma recorded_insert (modMap : ModuleInfoMap)
    (met : list (ModulePath * string)) (x : ModulePath) (setName version : string) :
  recorded modMap met → modMap !! x = None →
  recorded (<[x := mkModuleInfo setName version]> modMap) (met ++ [(x, setName)]).
Proof.
  intros Hrec Hx m s. rewrite elem_of_app, list_elem_of_singleton.
  destruct (decide (x = m)) as [->|Hne].
  - rewrite lookup_insert_eq. split.
    + intros [Hin|[= ->]].
      * apply Hrec in Hin as (info & Hinfo & _). congruence.
      * by eexists.
    + intros (info & [= <-] & <-). by right.
  - rewrite lookup_insert_ne by done. rewrite (Hrec m s). split.
    + intros [?|[= ? ?]]; [done|]. by subst.
    + by left.
Qed.

(** The loop over the modules of one set, after the occurrences [met]. *)
Lemma buildModuleMap_modules_run (setName : string) (moduleSet : ModuleSet)
    (modules : list ModulePath) :
  ∀ (modMap : ModuleInfoMap) (met : list (ModulePath * string)),
    recorded modMap met → NoDup met.*1 →
    (∀ x, x ∈ met.*1 → x ∉ ExcludedModules versionCfg) →
    match buildModuleMap_modules versionCfg setName moduleSet modules modMap with
    | inr modMap' =>
        recorded modMap' (met ++ ((λ m, (m, setName)) <$> modules))
        ∧ NoDup (met ++ ((λ m, (m, setName)) <$> modules)).*1
        ∧ (∀ x, x ∈ (met ++ ((λ m, (m, setName)) <$> modules)).*1 →
               x ∉ ExcludedModules versionCfg)
    | inl err =>
        ∃ before m after,
          modules = before ++ m :: after
          ∧ conflictAfter versionCfg
              (met ++ ((λ m, (m, setName)) <$> before)) m setName err
    end.
Proof.
  induction modules as [|x rest IH]; intros modMap met Hrec Hnd Hex.
  - simpl. by rewrite app_nil_r.
  - cbn [buildModuleMap_modules].
    destruct (modMap !! x) as [info|] eqn:Hx.
    { exists [], x, rest. split; [done|]. simpl. rewrite app_nil_r.
      split_and!; [done|done|]. left. exists (ModuleSetName info).
      split; [|done]. apply Hrec. by exists info. }
    pose proof (recorded_fresh _ _ _ Hrec Hx) as Hfresh.
    destruct (shouldExcludeModule versionCfg x) eqn:Hexcl.
    { exists [], x, rest. split; [done|]. simpl. rewrite app_nil_r.
      split_and!; [done|done|]. right.
      split_and!; [done| |done]. by apply shouldExcludeModule_true. }
    assert (x ∉ ExcludedModules versionCfg) as Hnex.
    { rewrite <- shouldExcludeModule_true. by rewrite Hexcl. }
    assert (NoDup (met ++ [(x, setName)]).*1) as Hnd1.
    { rewrite fmap_app. apply NoDup_app. split_and!; [done| |].
      - intros y Hy Hy'. apply list_elem_of_singleton in Hy'. by subst.
      - apply NoDup_singleton. }
    assert (∀ y, y ∈ (met ++ [(x, setName)]).*1 →
                 y ∉ ExcludedModules versionCfg) as Hex1.
    { intros y. rewrite fmap_app, elem_of_app. intros [?|Hy]; [by apply Hex|].
      apply list_elem_of_singleton in Hy. by subst. }
    pose proof (IH _ _ (recorded_insert _ _ _ setName (Version moduleSet) Hrec Hx)
                  Hnd1 Hex1) as Hrun.
    destruct (buildModuleMap_modules _ _ _ rest _) as [err|modMap'].
    + destruct Hrun as (before & m & after & -> & Hconflict).
      exists (x :: before), m, after. split; [done|].
      by rewrite <- app_assoc in Hconflict.
    + by rewrite <- app_assoc in Hrun.
Qed.

(** The loop over the sets, after the occurrences [met]. *)
Lemma buildModuleMap_sets_run (sets : list (string * ModuleSet)) :
  ∀ (modMap : ModuleInfoMap) (met : list (ModulePath * string)),
    recorded modMap met → NoDup (met.*1) →
    (∀ x, x ∈ met.*1 → x ∉ ExcludedModules versionCfg) →
    match buildModuleMap_sets versionCfg sets modMap with
    | inr modMap' =>
        recorded modMap' (met ++ occurrences sets)
        ∧ NoDup (met ++ occurrences sets).*1
        ∧ (∀ x, x ∈ (met ++ occurrences sets).*1 →
               x ∉ ExcludedModules versionCfg)
    | inl err =>
        ∃ before m setName after,
          occurrences sets = before ++ (m, setName) :: after
          ∧ conflictAfter versionCfg (met ++ before) m setName err
    end.
Proof.
  induction sets as [|[setName moduleSet] rest IH]; intros modMap met Hrec Hnd Hex.
  - simpl. unfold occurrences. simpl. by rewrite app_nil_r.
  - cbn [buildModuleMap_sets]. rewrite occurrences_cons. simpl.
    pose proof (buildModuleMap_modules_run setName moduleSet (Modules moduleSet)
                  modMap met Hrec Hnd Hex) as Hinner.
    destruct (buildModuleMap_modules _ _ _ _ _) as [err|modMap1].
    + destruct Hinner as (before & m & after & Hmods & Hconflict).
      exists ((λ m, (m, setName)) <$> before), m, setName,
        (((λ m, (m, setName)) <$> after) ++ occurrences rest).
      split; [|done]. rewrite Hmods, fmap_app, fmap_cons.
      by rewrite <- app_assoc.
    + destruct Hinner as (Hrec1 & Hnd1 & Hex1).
      pose proof (IH _ _ Hrec1 Hnd1 Hex1) as Hrun.
      destruct (buildModuleMap_sets _ rest _) as [err|modMap'].
      * destruct Hrun as (before & m & s & after & Hocc & Hconflict).
        exists (((λ m, (m, setName)) <$> Modules moduleSet) ++ before), m, s, after.
        split.
        -- by rewrite Hocc, <- app_assoc.
        -- by rewrite app_assoc.
      * by rewrite app_assoc.
Qed.

(** The error of [buildModuleMap] is that of the first conflict among the
    occurrences, in the order of the run. *)
Lemma buildModuleMap_first_conflict
    (range : ModuleSetMap → list (string * ModuleSet)) (err : error) :
  buildModuleMap range versionCfg = (None, Some err) →
  firstConflict versionCfg (occurrences (range (ModuleSets versionCfg))) err.
Proof.
  unfold buildModuleMap.
  pose proof (buildModuleMap_sets_run (range (ModuleSets versionCfg)) ∅ []) as Hrun.
  destruct (buildModuleMap_sets _ _ _) as [err'|modMap]; [|done].
  intros [= ->]. apply Hrun.
  - intros m s. rewrite elem_of_nil. split; [done|].
    intros (info & Hinfo & _). by rewrite lookup_empty in Hinfo.
  - constructor.
  - intros x Hx. by apply elem_of_nil in Hx.
Qed.

(** Among occurrences none of which is a repeat, a module path has one set. *)
Lemma met_set_unique (met : list (ModulePath * string)) (m : ModulePath)
    (f1 f2 : string) :
  NoDup met.*1 → (m, f1) ∈ met → (m, f2) ∈ met → f1 = f2.
Proof.
  induction met as [|[x t] b IH]; intros Hnd H1 H2.
  - by apply elem_of_nil in H1.
  - rewrite fmap_cons in Hnd. apply NoDup_cons in Hnd as [Hx Hnd].
    apply elem_of_cons in H1 as [H1|H1]; apply elem_of_cons in H2 as [H2|H2];
      simplify_eq/=.
    + done.
    + exfalso. apply Hx. apply list_elem_of_fmap. by exists (x, f2).
    + exfalso. apply Hx. apply list_elem_of_fmap. by exists (x, f1).
    + by apply IH.
Qed.

(** A conflict is not among the occurrences before the first conflict. *)
Lemma conflictAfter_not_before (before after : list (ModulePath * string))
    (m : ModulePath) (setName : string) (err : error) :
  conflictAfter versionCfg before m setName err →
  NoDup (before ++ (m, setName) :: after).*1 →
  (∀ x, x ∈ (before ++ (m, setName) :: after).*1 →
        x ∉ ExcludedModules versionCfg) →
  False.
Proof.
  intros (_ & _ & Hkind) Hnd Hex.
  destruct Hkind as [(firstSet & Hin & _)|(_ & Hexcl & _)].
  - rewrite fmap_app, fmap_cons in Hnd. apply NoDup_app in Hnd as (_ & Hdisj & _).
    apply (Hdisj m).
    + apply list_elem_of_fmap. by exists (m, firstSet).
    + by left.
  - apply (Hex m); [|done]. rewrite fmap_app, fmap_cons.
    apply elem_of_app. right. by left.
Qed.

(** The first conflict is one: the occurrences in the order of the run
    determine the error. *)
Lemma firstConflict_unique (occ : list (ModulePath * string)) (err1 err2 : error) :
  firstConflict versionCfg occ err1 → firstConflict versionCfg occ err2 →
  err1 = err2.
Proof.
  intros (b1 & m1 & s1 & a1 & Hocc1 & Hc1) (b2 & m2 & s2 & a2 & Hocc2 & Hc2).
  rewrite Hocc1 in Hocc2. apply app_eq_app in Hocc2 as [l [[-> Hl]|[-> Hl]]].
  - destruct l as [|o l].
    + rewrite app_nil_r in *. simpl in Hl. injection Hl as -> -> ->.
      destruct Hc1 as (Hnd & _ & [(f1 & Hin1 & ->)|(Hnot1 & _ & ->)]);
        destruct Hc2 as (_ & _ & [(f2 & Hin2 & ->)|(Hnot2 & _ & ->)]).
      * f_equal.
        by apply (met_set_unique b2 m1).
      * exfalso. apply Hnot2. apply list_elem_of_fmap. by exists (m1, f1).
      * exfalso. apply Hnot1. apply list_elem_of_fmap. by exists (m1, f2).
      * done.
    + simpl in Hl. injection Hl as <- ->.
      exfalso. destruct Hc1 as (Hnd & Hex & _).
      by apply (conflictAfter_not_before b2 l _ _ _ Hc2 Hnd Hex).
  - destruct l as [|o l].
    + rewrite app_nil_r in *. simpl in Hl. injection Hl as -> -> ->.
      destruct Hc1 as (Hnd & _ & [(f1 & Hin1 & ->)|(Hnot1 & _ & ->)]);
        destruct Hc2 as (_ & _ & [(f2 & Hin2 & ->)|(Hnot2 & _ & ->)]).
      * f_equal.
        by apply (met_set_unique b1 m2).
      * exfalso. apply Hnot2. apply list_elem_of_fmap. by exists (m2, f1).
      * exfalso. apply Hnot1. apply list_elem_of_fmap. by exists (m2, f2).
      * done.
    + simpl in Hl. injection Hl as <- ->.
      exfalso. destruct Hc2 as (Hnd & Hex & _).
      by apply (conflictAfter_not_before b1 l _ _ _ Hc1 Hnd Hex).
Qed.

Lemma occurrences_NoDup (range : ModuleSetMap → list (string * ModuleSet)) :
  range_ok range →
  (∀ s ms, ModuleSets versionCfg !! s = Some ms → NoDup (Modules ms)) →
  NoDup (occurrences (range (ModuleSets versionCfg))).
Proof.
  intros Hrange Hlists. unfold occurrences. apply NoDup_bind.
  - intros [s1 ms1] [s2 ms2] [m s] H1 H2 Hin1 Hin2.
    apply list_elem_of_fmap in Hin1 as (? & [= -> ->] & _).
    apply list_elem_of_fmap in Hin2 as (? & [= _ <-] & _).
    simpl in *. f_equal.
    apply (elem_of_range versionCfg range Hrange) in H1, H2. congruence.
  - intros [s ms] Hset. simpl.
    apply (elem_of_range versionCfg range Hrange) in Hset.
    apply (NoDup_fmap_2_strong). 
    + intros x y _ _ [= ->]. done.
    + by apply (Hlists s).
  - rewrite (Hrange _). apply NoDup_map_to_list.
Qed.

End FirstConflict.

(** C4 as stated fails: with the module path of two sets also excluded, the
    error is the one of the exclusion. *)
Lemma buildModuleMap_duplicate_counterexample :
  ¬ (∀ (range : ModuleSetMap → list (string * ModuleSet))
       (versionCfg : versionConfig) (m : ModulePath) (s1 s2 : string)
       (ms1 ms2 : ModuleSet),
       range_ok range → s1 ≠ s2 →
       ModuleSets versionCfg !! s1 = Some ms1 →
       ModuleSets versionCfg !! s2 = Some ms2 →
       m ∈ Modules ms1 → m ∈ Modules ms2 →
       ∃ m' a b,
         buildModuleMap range versionCfg
           = (None, Some (DuplicateModuleError m' a b))).
Proof.
  intros H.
  destruct (H map_to_list
              (mkVersionConfig
                 (<["A" := mkModuleSet "v1.0.0" ["x"]]>
                    (<["B" := mkModuleSet "v0.1.0" ["x"]]> ∅)) ["x"])
              "x" "A" "B" (mkModuleSet "v1.0.0" ["x"]) (mkModuleSet "v0.1.0" ["x"]))
    as (m' & a & b & Hrun).
  - by intros m.
  - discriminate.
  - reflexivity.
  - reflexivity.
  - by left.
  - by left.
  - vm_compute in Hrun. discriminate Hrun.
Qed.

(** In that configuration the error is the same in both orders of the sets. *)
Example buildModuleMap_excluded_first_any_order
    (range : ModuleSetMap → list (string * ModuleSet)) :
  range_ok range →
  buildModuleMap range
    (mkVersionConfig
       (<["A" := mkModuleSet "v1.0.0" ["x"]]>
          (<["B" := mkModuleSet "v0.1.0" ["x"]]> ∅)) ["x"])
    = (None, Some (ExcludedModuleConflictError "x")).
Proof.
  intros Hrange. unfold buildModuleMap. cbn [ModuleSets].
  pose proof (Hrange (<["A" := mkModuleSet "v1.0.0" ["x"]]>
                        (<["B" := mkModuleSet "v0.1.0" ["x"]]> ∅))) as Hperm.
  change (map_to_list _) with
    [("A", mkModuleSet "v1.0.0" ["x"]); ("B", mkModuleSet "v0.1.0" ["x"])] in Hperm.
  symmetry in Hperm. apply Permutation_length_2_inv in Hperm as [-> | ->];
    reflexivity.
Qed.

(** C4, amended: a module path in two different sets makes [buildModuleMap]
    fail, with no index, in every order of the sets.  The error is that of
    the first conflict met: of the first occurrence of a module path, in the
    order of the run, that repeats an earlier occurrence or is excluded.  For
    a repeat it names the module path, the set of the earlier occurrence and
    the set of the repeat; for an excluded module path it names that path.
    No other error is that of the first conflict.  It is of the first kind when no module path of a set is excluded; and
    when moreover the module path in the two sets is the only one listed
    more than once, the error names it and the two sets. *)
Theorem buildModuleMap_duplicate
    (range : ModuleSetMap → list (string * ModuleSet))
    (versionCfg : versionConfig) (m : ModulePath) (s1 s2 : string)
    (ms1 ms2 : ModuleSet) :
  range_ok range → s1 ≠ s2 →
  ModuleSets versionCfg !! s1 = Some ms1 →
  ModuleSets versionCfg !! s2 = Some ms2 →
  m ∈ Modules ms1 → m ∈ Modules ms2 →
  ∃ err,
    buildModuleMap range versionCfg = (None, Some err)
    ∧ firstConflict versionCfg
        (occurrences (range (ModuleSets versionCfg))) err
    ∧ (∀ err', firstConflict versionCfg
                 (occurrences (range (ModuleSets versionCfg))) err' →
               err' = err)
    ∧ conflictError versionCfg err
    ∧ (noExcludedModule versionCfg →
         ∃ m' a b, err = DuplicateModuleError m' a b)
    ∧ (noExcludedModule versionCfg → onlyDuplicate versionCfg m s1 s2 →
         err = DuplicateModuleError m s1 s2
         ∨ err = DuplicateModuleError m s2 s1).
Proof.
  intros Hrange Hne Hs1 Hs2 Hm1 Hm2.
  destruct (buildModuleMap_fails versionCfg range Hrange) as [err Hrun].
  { intros [Hnd _]. by apply (two_sets_duplicate versionCfg m s1 s2 ms1 ms2). }
  exists err. split; [done|].
  pose proof (buildModuleMap_first_conflict versionCfg range err Hrun) as Hfirst.
  destruct (buildModuleMap_error versionCfg range Hrange err)
    as (_ & Hconflict & Hdup & _); [by rewrite Hrun|].
  split_and!; [done| |done|done|].
  { intros err' Hfirst'. by apply (firstConflict_unique versionCfg _ _ _ Hfirst'). }
  intros Hno [Hlists Honly].
  destruct Hfirst as (before & m' & s & after & Hocc & _ & _ & Hkind).
  assert (∀ x t, (x, t) ∈ occurrences (range (ModuleSets versionCfg)) →
                 ∃ ms, ModuleSets versionCfg !! t = Some ms ∧ x ∈ Modules ms)
    as Hlookup.
  { intros x t (ms & Hset & Hx)%elem_of_occurrences. exists ms. split; [|done].
    by apply (elem_of_range versionCfg range Hrange). }
  assert ((m', s) ∈ occurrences (range (ModuleSets versionCfg))) as Hlater.
  { rewrite Hocc. apply elem_of_app. right. by left. }
  destruct (Hlookup _ _ Hlater) as (msb & Hb & Hmb).
  destruct Hkind as [(s' & Hin & ->)|(_ & Hex & ->)].
  - assert ((m', s') ∈ occurrences (range (ModuleSets versionCfg))) as Hearlier.
    { rewrite Hocc. apply elem_of_app. by left. }
    destruct (Hlookup _ _ Hearlier) as (msa & Ha & Hma).
    destruct (decide (s' = s)) as [->|Hdiff].
    + exfalso.
      pose proof (occurrences_NoDup versionCfg range Hrange Hlists) as Hnd.
      rewrite Hocc in Hnd. apply NoDup_app in Hnd as (_ & Hdisj & _).
      apply (Hdisj _ Hin). by left.
    + destruct (Honly m' s' s msa msb Hdiff Ha Hb Hma Hmb)
        as [-> [[-> ->]|[-> ->]]]; [by left|by right].
  - by destruct (Hno s msb m' Hb Hmb).
Qed.

Lemma buildModuleMap_duplicate_witness :
  let versionCfg :=
    mkVersionConfig
      (<["A" := mkModuleSet "v1.0.0" ["x"]]>
         (<["B" := mkModuleSet "v0.1.0" ["y"; "x"]]> ∅)) [] in
  ∃ err,
    buildModuleMap map_to_list versionCfg = (None, Some err)
    ∧ firstConflict versionCfg
        (occurrences (map_to_list (ModuleSets versionCfg))) err
    ∧ (∀ err', firstConflict versionCfg
                 (occurrences (map_to_list (ModuleSets versionCfg))) err' →
               err' = err)
    ∧ conflictError versionCfg err
    ∧ (noExcludedModule versionCfg →
         ∃ m' a b, err = DuplicateModuleError m' a b)
    ∧ (noExcludedModule versionCfg → onlyDuplicate versionCfg "x" "A" "B" →
         err = DuplicateModuleError "x" "A" "B"
         ∨ err = DuplicateModuleError "x" "B" "A").
Proof.
  cbv zeta.
  apply (buildModuleMap_duplicate map_to_list _ "x" "A" "B"
           (mkModuleSet "v1.0.0" ["x"]) (mkModuleSet "v0.1.0" ["y"; "x"])).
  - intros m. reflexivity.
  - discriminate.
  - reflexivity.
  - reflexivity.
  - apply list_elem_of_here.
  - apply list_elem_of_further, list_elem_of_here.
Defined.

(** In the configuration of the witness the module path listed once, y, is
    never the one that is named: the error names x, the set A met first and
    the set B. *)
Example buildModuleMap_duplicate_named :
  buildModuleMap map_to_list
    (mkVersionConfig
       (<["A" := mkModuleSet "v1.0.0" ["x"]]>
          (<["B" := mkModuleSet "v0.1.0" ["y"; "x"]]> ∅)) [])
  = (None, Some (DuplicateModuleError "x" "A" "B"))
  ∧ ¬ firstConflict
        (mkVersionConfig
           (<["A" := mkModuleSet "v1.0.0" ["x"]]>
              (<["B" := mkModuleSet "v0.1.0" ["y"; "x"]]> ∅)) [])
        (occurrences
           (map_to_list
              (<["A" := mkModuleSet "v1.0.0" ["x"]]>
                 (<["B" := mkModuleSet "v0.1.0" ["y"; "x"]]> ∅))))
        (DuplicateModuleError "y" "B" "B").
Proof.
  split; [reflexivity|].
  change (occurrences _) with [("x", "A"); ("y", "B"); ("x", "B")].
  intros (before & m & s & after & Hocc & Hnd & _ & [(s' & Hin & [= <- <- <-])|(_ & _ & ?)]);
    [|done].
  destruct before as [|o1 [|o2 [|o3 before]]]; simplify_eq/=;
    first [ by apply list_elem_of_singleton in Hin | by destruct before ].
Qed.

(** That configuration excludes no module path of a set, and x is the only
    module path listed more than once, in A and in B. *)
Example buildModuleMap_duplicate_only :
  noExcludedModule
    (mkVersionConfig
       (<["A" := mkModuleSet "v1.0.0" ["x"]]>
          (<["B" := mkModuleSet "v0.1.0" ["y"; "x"]]> ∅)) [])
  ∧ onlyDuplicate
      (mkVersionConfig
         (<["A" := mkModuleSet "v1.0.0" ["x"]]>
            (<["B" := mkModuleSet "v0.1.0" ["y"; "x"]]> ∅)) [])
      "x" "A" "B".
Proof.
  assert (∀ s ms,
            (<["A" := mkModuleSet "v1.0.0" ["x"]]>
               (<["B" := mkModuleSet "v0.1.0" ["y"; "x"]]> ∅)
               : ModuleSetMap) !! s = Some ms →
            (s = "A" ∧ ms = mkModuleSet "v1.0.0" ["x"])
            ∨ (s = "B" ∧ ms = mkModuleSet "v0.1.0" ["y"; "x"])) as Hsets.
  { intros s ms Hs. destruct (decide (s = "A")) as [->|HA].
    - rewrite lookup_insert_eq in Hs. left. by injection Hs as <-.
    - rewrite lookup_insert_ne in Hs by done.
      destruct (decide (s = "B")) as [->|HB].
      + rewrite lookup_insert_eq in Hs. right. by injection Hs as <-.
      + rewrite lookup_insert_ne in Hs by done. by rewrite lookup_empty in Hs. }
  split; [|split].
  - intros s ms m _ _ Hex. by apply elem_of_nil in Hex.
  - intros s ms Hs. cbn [ModuleSets] in Hs.
    destruct (Hsets s ms Hs) as [[-> ->]|[-> ->]]; cbn [Modules].
    + apply NoDup_singleton.
    + apply NoDup_cons. split; [|apply NoDup_singleton].
      intros Hin. by apply list_elem_of_singleton in Hin.
  - intros m' a b msa msb Hne Ha Hb Hma Hmb. cbn [ModuleSets] in Ha, Hb.
    destruct (Hsets a msa Ha) as [[-> ->]|[-> ->]];
      destruct (Hsets b msb Hb) as [[-> ->]|[-> ->]]; try done;
      cbn [Modules] in Hma, Hmb.
    + apply list_elem_of_singleton in Hma as ->. split; [done|]. by left.
    + apply list_elem_of_singleton in Hmb as ->. split; [done|]. by right.
Qed.

(** C5 as stated fails: a module path listed twice before the excluded one
    gives the error of the duplicate. *)
Lemma buildModuleMap_excluded_counterexample :
  ¬ (∀ (range : ModuleSetMap → list (string * ModuleSet))
       (versionCfg : versionConfig) (m : ModulePath) (s : string)
       (ms : ModuleSet),
       range_ok range →
       ModuleSets versionCfg !! s = Some ms →
       m ∈ Modules ms → m ∈ ExcludedModules versionCfg →
       buildModuleMap range versionCfg
         = (None, Some (ExcludedModuleConflictError m))).
Proof.
  intros H.
  specialize (H map_to_list
                (mkVersionConfig
                   (<["A" := mkModuleSet "v1.0.0" ["y"; "y"; "x"]]> ∅) ["x"])
                "x" "A" (mkModuleSet "v1.0.0" ["y"; "y"; "x"])).
  assert (buildModuleMap map_to_list
            (mkVersionConfig
               (<["A" := mkModuleSet "v1.0.0" ["y"; "y"; "x"]]> ∅) ["x"])
          = (None, Some (DuplicateModuleError "y" "A" "A"))) as Hrun
    by reflexivity.
  rewrite Hrun in H. discriminate H.
  - by intros m.
  - reflexivity.
  - do 2 apply list_elem_of_further. apply list_elem_of_here.
  - apply list_elem_of_here.
Qed.

(** C5, amended: a module path that is in a set and excluded makes
    [buildModuleMap] fail, with no index, in every order of the sets.  The
    error is that of the first conflict met: of the first occurrence of a
    module path, in the order of the run, that repeats an earlier occurrence
    or is excluded.  For an excluded module path it names that path; for a
    repeat it names the module path, the set of the earlier occurrence and
    the set of the repeat.  No other error is that of the first conflict.
    It is of the first kind when no module path
    occurs twice in the lists of the sets; and when moreover the module path
    is the only one of a set that is excluded, the error names it. *)
Theorem buildModuleMap_excluded
    (range : ModuleSetMap → list (string * ModuleSet))
    (versionCfg : versionConfig) (m : ModulePath) (s : string) (ms : ModuleSet) :
  range_ok range →
  ModuleSets versionCfg !! s = Some ms →
  m ∈ Modules ms → m ∈ ExcludedModules versionCfg →
  ∃ err,
    buildModuleMap range versionCfg = (None, Some err)
    ∧ firstConflict versionCfg
        (occurrences (range (ModuleSets versionCfg))) err
    ∧ (∀ err', firstConflict versionCfg
                 (occurrences (range (ModuleSets versionCfg))) err' →
               err' = err)
    ∧ conflictError versionCfg err
    ∧ (noDuplicateModule versionCfg →
         ∃ m', err = ExcludedModuleConflictError m')
    ∧ (noDuplicateModule versionCfg → onlyExcluded versionCfg m →
         err = ExcludedModuleConflictError m).
Proof.
  intros Hrange Hs Hm Hex.
  destruct (buildModuleMap_fails versionCfg range Hrange) as [err Hrun].
  { intros [_ Hno]. by apply (Hno s ms m). }
  exists err. split; [done|].
  pose proof (buildModuleMap_first_conflict versionCfg range err Hrun) as Hfirst.
  destruct (buildModuleMap_error versionCfg range Hrange err)
    as (_ & Hconflict & _ & Hexcl); [by rewrite Hrun|].
  split_and!; [done| |done|done|].
  { intros err' Hfirst'. by apply (firstConflict_unique versionCfg _ _ _ Hfirst'). }
  intros Hnd Honly. destruct (Hexcl Hnd) as [m' ->].
  destruct Hconflict as (Hex' & s' & ms' & Hs' & Hm').
  by rewrite (Honly m' s' ms' Hs' Hm' Hex').
Qed.

Lemma buildModuleMap_excluded_witness :
  let versionCfg :=
    mkVersionConfig
      (<["A" := mkModuleSet "v1.0.0" ["y"]]>
         (<["B" := mkModuleSet "v0.1.0" ["z"; "x"]]> ∅)) ["x"] in
  ∃ err,
    buildModuleMap map_to_list versionCfg = (None, Some err)
    ∧ firstConflict versionCfg
        (occurrences (map_to_list (ModuleSets versionCfg))) err
    ∧ (∀ err', firstConflict versionCfg
                 (occurrences (map_to_list (ModuleSets versionCfg))) err' →
               err' = err)
    ∧ conflictError versionCfg err
    ∧ (noDuplicateModule versionCfg →
         ∃ m', err = ExcludedModuleConflictError m')
    ∧ (noDuplicateModule versionCfg → onlyExcluded versionCfg "x" →
         err = ExcludedModuleConflictError "x").
Proof.
  cbv zeta.
  apply (buildModuleMap_excluded map_to_list _ "x" "B"
           (mkModuleSet "v0.1.0" ["z"; "x"])).
  - intros m. reflexivity.
  - reflexivity.
  - apply list_elem_of_further, list_elem_of_here.
  - apply list_elem_of_here.
Defined.

(** In the configuration of the witness no module path occurs twice, x is
    the only module path of a set that is excluded, and the error names x. *)
Example buildModuleMap_excluded_only :
  noDuplicateModule
    (mkVersionConfig
       (<["A" := mkModuleSet "v1.0.0" ["y"]]>
          (<["B" := mkModuleSet "v0.1.0" ["z"; "x"]]> ∅)) ["x"])
  ∧ onlyExcluded
      (mkVersionConfig
         (<["A" := mkModuleSet "v1.0.0" ["y"]]>
            (<["B" := mkModuleSet "v0.1.0" ["z"; "x"]]> ∅)) ["x"])
      "x"
  ∧ buildModuleMap map_to_list
      (mkVersionConfig
         (<["A" := mkModuleSet "v1.0.0" ["y"]]>
            (<["B" := mkModuleSet "v0.1.0" ["z"; "x"]]> ∅)) ["x"])
    = (None, Some (ExcludedModuleConflictError "x")).
Proof.
  split; [|split].
  - unfold noDuplicateModule.
    change (allModules _) with ["y"; "z"; "x"].
    repeat (apply NoDup_cons; split;
            [intros Hin; repeat (apply elem_of_cons in Hin as [?|Hin]; [done|]);
             by apply elem_of_nil in Hin|]).
    apply NoDup_nil_2.
  - intros m' s ms _ _ Hex. cbn [ExcludedModules] in Hex.
    by apply list_elem_of_singleton in Hex.
  - reflexivity.
Qed.

(** ** Walk as a run over the visits of the tree *)

(** Induction over a tree, with the property at every entry of a directory. *)
Lemma entry_ind (P : entry → Prop) :
  (∀ name content, P (File name content)) →
  (∀ name listing names, Forall P names → P (Dir name listing names)) →
  (∀ name err, P (NoStat name err)) →
  ∀ e, P e.
Proof.
  intros HFile HDir HNoStat. fix IH 1. intros [name c|name l names|name err].
  - apply HFile.
  - apply HDir. induction names as [|child rest IHrest]; constructor.
    + apply IH.
    + apply IHrest.
  - apply HNoStat.
Qed.

Section WalkFacts.

Context {S : Type}.
Variable Join : string → string → string.
Variable walkFn : string → entry → option error → S → option error * S.

(** The callback never asks to skip a directory. *)
Hypothesis no_SkipDir : ∀ path e err s, (walkFn path e err s).1 ≠ Some SkipDir.

Lemma walk_Dir (path name : string) (listing : option string)
    (names : list entry) (s : S) :
  filepath.walk Join walkFn path (Dir name listing names) s =
    let '(err1, s1) := walkFn path (Dir name listing names) (OSError <$> listing) s in
    match OSError <$> listing, err1 with
    | None, None => filepath.walkNames Join walkFn path names s1
    | _, _ => (err1, s1)
    end.
Proof. reflexivity. Qed.

Lemma visits_Dir (path name : string) (names : list entry) :
  visits Join path (Dir name None names)
    = (path, Dir name None names) :: visitsNames Join path names.
Proof. reflexivity. Qed.

Lemma runVisits_app (vs1 vs2 : list (string * entry)) (s : S) :
  runVisits walkFn (vs1 ++ vs2) s =
    match runVisits walkFn vs1 s with
    | (Some err, s') => (Some err, s')
    | (None, s') => runVisits walkFn vs2 s'
    end.
Proof.
  revert s. induction vs1 as [|[path e] vs1 IH]; intros s; simpl; [done|].
  destruct (walkFn path e (walkError e) s) as [[err|] s']; [done|]. apply IH.
Qed.

Lemma runVisits_no_SkipDir (vs : list (string * entry)) (s : S) :
  (runVisits walkFn vs s).1 ≠ Some SkipDir.
Proof.
  revert s. induction vs as [|[path e] vs IH]; intros s; simpl; [done|].
  pose proof (no_SkipDir path e (walkError e) s) as Hno.
  destruct (walkFn path e (walkError e) s) as [[err|] s']; [done|]. apply IH.
Qed.

(** [walk] hands the visits of the tree to the callback, in their order,
    up to the first error of the callback. *)
Lemma walk_runVisits (e : entry) :
  ∀ path s,
    filepath.walk Join walkFn path e s
      = runVisits walkFn (visits Join path e) s.
Proof.
  induction e as [name c|name listing names IH|name err] using entry_ind;
    intros path s.
  - simpl. by destruct (walkFn path _ None s) as [[err|] s'].
  - rewrite walk_Dir. destruct listing as [msg|]; simpl.
    { by destruct (walkFn path _ _ s) as [[err|] s']. }
    destruct (walkFn path _ None s) as [[err|] s1]; [done|].
    clear s. revert s1. induction IH as [|child rest Hchild _ IHrest];
      intros s; simpl; [done|].
    rewrite runVisits_app.
    destruct child as [cname c|cname clisting cnames|cname cerr].
    + rewrite Hchild.
      destruct (runVisits walkFn _ s) as [[err|] s']; [done|]. apply IHrest.
    + rewrite Hchild.
      pose proof (runVisits_no_SkipDir
                    (visits Join (Join path cname) (Dir cname clisting cnames)) s)
        as Hno.
      destruct (runVisits walkFn _ s) as [[err|] s']; [|apply IHrest].
      simpl. rewrite bool_decide_eq_true_2; [done|]. by intros ->.
    + simpl.
      pose proof (no_SkipDir (Join path cname) (NoStat cname cerr)
                    (Some (OSError cerr)) s) as Hno.
      destruct (walkFn _ _ _ s) as [[err|] s']; [|apply IHrest].
      destruct (decide (err ≠ SkipDir)) as [|Heq]; [done|].
      apply dec_stable in Heq. by subst.
  - simpl. by destruct (walkFn path _ _ s) as [[err'|] s'].
Qed.

Lemma Walk_runVisits (root : string) (tree : entry) (s : S) :
  filepath.Walk Join walkFn root tree s
    = runVisits walkFn (visits Join root tree) s.
Proof.
  unfold filepath.Walk.
  assert ((match tree with
           | NoStat _ err => walkFn root tree (Some (OSError err)) s
           | _ => filepath.walk Join walkFn root tree s
           end) = runVisits walkFn (visits Join root tree) s) as ->.
  { destruct tree; try apply walk_runVisits.
    simpl. by destruct (walkFn root _ _ s) as [[err'|] s']. }
  pose proof (runVisits_no_SkipDir (visits Join root tree) s) as Hno.
  destruct (runVisits walkFn _ s) as [[err|] s']; [|done].
  by destruct err.
Qed.

End WalkFacts.

(** ** The module path index *)
Section PathIndexFacts.

Variable Join : string → string → string.
Variable modfile_ModulePath : string → string.
Variable versionCfg : versionConfig.

Local Abbreviation goMod := (findGoMod modfile_ModulePath versionCfg).
Local Abbreviation entryOf := (manifestEntry modfile_ModulePath versionCfg).

Lemma findGoMod_no_SkipDir (path : string) (e : entry) (err : option error)
    (st : walkState) :
  (goMod path e err st).1 ≠ Some SkipDir.
Proof.
  unfold findGoMod. destruct err; [done|].
  destruct (decide _); [|done].
  destruct (ReadFile path e); [done|]. by destruct (decide _).
Qed.

(** One call of [goMod], by what the visit is. *)
Lemma findGoMod_visit (v : string * entry) (st : walkState) :
  goMod v.1 v.2 (walkError v.2) st =
    match unreadableManifest v with
    | Some msg => (Some (OSError msg), st)
    | None =>
        (None,
         mkWalkState
           (match entryOf v with
            | Some kv => <[kv.1 := kv.2]> (modPathMap st)
            | None => modPathMap st
            end)
           (stdout st ++ option_list (walkWarning v)))
    end.
Proof.
  destruct v as [path e], st as [m out].
  unfold findGoMod, unreadableManifest, manifestEntry,
    walkWarning, isManifest. simpl.
  destruct (walkError e) as [err|]; simpl; [done|].
  destruct (decide (filepath.Base path = "go.mod")) as [Hbase|Hbase].
  - rewrite bool_decide_eq_true_2 by done.
    destruct (ReadFile path e) as [msg|mod_]; [done|].
    destruct (decide _); simpl; by rewrite app_nil_r.
  - rewrite bool_decide_eq_false_2 by done. simpl. by rewrite app_nil_r.
Qed.

(** The run over visits none of which is an unreadable go.mod. *)
Lemma runVisits_findGoMod_readable (vs : list (string * entry))
    (st : walkState) :
  Forall (λ v, unreadableManifest v = None) vs →
  runVisits goMod vs st =
    (None,
     mkWalkState
       (foldl (λ m kv, <[kv.1 := kv.2]> m) (modPathMap st) (omap entryOf vs))
       (stdout st ++ omap walkWarning vs)).
Proof.
  intros Hall. revert st.
  induction Hall as [|[path e] vs Hv _ IH]; intros st; simpl.
  - rewrite app_nil_r. by destruct st.
  - pose proof (findGoMod_visit (path, e) st) as Hstep. simpl in Hstep.
    rewrite Hstep, Hv, IH. simpl. f_equal. f_equal.
    + by destruct (entryOf (path, e)).
    + rewrite <- app_assoc. f_equal. by destruct (walkWarning (path, e)).
Qed.

(** The run up to the first unreadable go.mod. *)
Lemma runVisits_findGoMod_unreadable (before after : list (string * entry))
    (v : string * entry) (msg : string) (st : walkState) :
  Forall (λ v, unreadableManifest v = None) before →
  unreadableManifest v = Some msg →
  runVisits goMod (before ++ v :: after) st =
    (Some (OSError msg),
     mkWalkState
       (foldl (λ m kv, <[kv.1 := kv.2]> m) (modPathMap st)
          (omap entryOf before))
       (stdout st ++ omap walkWarning before)).
Proof.
  intros Hbefore Hv.
  rewrite runVisits_app, runVisits_findGoMod_readable by done.
  destruct v as [path e]. simpl.
  pose proof (findGoMod_visit (path, e)) as Hstep. simpl in Hstep.
  by rewrite Hstep, Hv.
Qed.

(** No call of [goMod] stores an excluded module path. *)
Lemma runVisits_findGoMod_excluded (vs : list (string * entry))
    (st : walkState) (k : ModulePath) :
  k ∈ ExcludedModules versionCfg →
  modPathMap st !! k = None →
  modPathMap (runVisits goMod vs st).2 !! k = None.
Proof.
  intros Hk. revert st. induction vs as [|[path e] vs IH]; intros st Hst; simpl.
  - done.
  - pose proof (findGoMod_visit (path, e) st) as Hstep. simpl in Hstep.
    rewrite Hstep. destruct (unreadableManifest (path, e)); [done|].
    apply IH. simpl.
    destruct (entryOf (path, e)) as [[k' p]|] eqn:Hentry; [|done].
    simpl. rewrite lookup_insert_ne; [done|]. intros ->.
    unfold manifestEntry in Hentry.
    destruct (isManifest _); [|done].
    destruct (ReadFile _ _); [done|].
    destruct (decide _) as [|Hnot]; [done|]. injection Hentry as <- _.
    apply Hnot. by apply elem_of_getExcludedModules.
Qed.

Lemma BuildModulePathMap_runVisits (root : string) (tree : entry) :
  BuildModulePathMap Join modfile_ModulePath versionCfg root tree =
    match runVisits goMod (visits Join root tree) (mkWalkState ∅ []) with
    | (Some err, st) => (None, Some err, stdout st)
    | (None, st) => (Some (modPathMap st), None, stdout st)
    end.
Proof.
  unfold BuildModulePathMap.
  by rewrite (Walk_runVisits Join goMod findGoMod_no_SkipDir).
Qed.

End PathIndexFacts.

(** C1 as stated fails: with the go.mod of one directory unreadable and the
    go.mod files of two other directories valid, [BuildModulePathMap] returns
    the error of the read and no index, and prints no warning. *)
Lemma BuildModulePathMap_unreadable_counterexample :
  omap unreadableManifest
    (visits joinSlash "/repo"
       (Dir "repo" None
          [Dir "a" None [File "go.mod" (Content "module example.com/a")];
           Dir "b" None [File "go.mod" (ReadError "open /repo/b/go.mod: permission denied")];
           Dir "c" None [File "go.mod" (Content "module example.com/c")]]))
    = ["open /repo/b/go.mod: permission denied"]
  ∧ omap (manifestEntry declaredModulePath (mkVersionConfig ∅ []))
      (visits joinSlash "/repo"
         (Dir "repo" None
            [Dir "a" None [File "go.mod" (Content "module example.com/a")];
             Dir "b" None [File "go.mod" (ReadError "open /repo/b/go.mod: permission denied")];
             Dir "c" None [File "go.mod" (Content "module example.com/c")]]))
      = [("example.com/a", "/repo/a/go.mod"); ("example.com/c", "/repo/c/go.mod")]
  ∧ BuildModulePathMap joinSlash declaredModulePath (mkVersionConfig ∅ []) "/repo"
      (Dir "repo" None
         [Dir "a" None [File "go.mod" (Content "module example.com/a")];
          Dir "b" None [File "go.mod" (ReadError "open /repo/b/go.mod: permission denied")];
          Dir "c" None [File "go.mod" (Content "module example.com/c")]])
      = (None, Some (OSError "open /repo/b/go.mod: permission denied"), []).
Proof. split_and!; reflexivity. Qed.

(** C1, amended: an error that Walk itself reports for a path (lstat fails,
    or the names of a directory cannot be listed) is printed as a warning and
    the path is skipped; the walk goes on.  So where every go.mod that the
    walk reaches can be read, [BuildModulePathMap] succeeds: the index holds
    exactly the entries of the go.mod files reached whose module path is not
    excluded, and there is one warning per error that Walk reported.  A go.mod
    that is reached and cannot be read ends the walk: the result is the error
    of the read and no index. *)
Theorem BuildModulePathMap_walk
    (Join : string → string → string) (modfile_ModulePath : string → string)
    (versionCfg : versionConfig) (root : string) (tree : entry) :
  (Forall (λ v, unreadableManifest v = None) (visits Join root tree) →
   BuildModulePathMap Join modfile_ModulePath versionCfg root tree =
     (Some (indexOf (omap (manifestEntry modfile_ModulePath versionCfg)
                       (visits Join root tree))),
      None,
      omap walkWarning (visits Join root tree)))
  ∧ (∀ before v after msg,
       visits Join root tree = before ++ v :: after →
       Forall (λ v, unreadableManifest v = None) before →
       unreadableManifest v = Some msg →
       BuildModulePathMap Join modfile_ModulePath versionCfg root tree =
         (None, Some (OSError msg), omap walkWarning before)).
Proof.
  rewrite BuildModulePathMap_runVisits. split.
  - intros Hall. by rewrite runVisits_findGoMod_readable.
  - intros before v after msg -> Hbefore Hv.
    by rewrite (runVisits_findGoMod_unreadable _ _ before after v msg).
Qed.

(** A tree with two valid go.mod files and one on which lstat fails: the
    index has the two entries and there is one warning. *)
Lemma BuildModulePathMap_walk_witness :
  BuildModulePathMap joinSlash declaredModulePath (mkVersionConfig ∅ []) "/repo"
    (Dir "repo" None
       [Dir "a" None [File "go.mod" (Content "module example.com/a")];
        Dir "b" None [NoStat "go.mod" "lstat /repo/b/go.mod: permission denied"];
        Dir "c" None [File "go.mod" (Content "module example.com/c")]])
    = (Some (<["example.com/c" := "/repo/c/go.mod"]>
               (<["example.com/a" := "/repo/a/go.mod"]> ∅)),
       None,
       ["Warning: file could not be read during filepath.Walk(): lstat /repo/b/go.mod: permission denied"]).
Proof.
  destruct (BuildModulePathMap_walk joinSlash declaredModulePath
              (mkVersionConfig ∅ []) "/repo"
              (Dir "repo" None
                 [Dir "a" None [File "go.mod" (Content "module example.com/a")];
                  Dir "b" None [NoStat "go.mod" "lstat /repo/b/go.mod: permission denied"];
                  Dir "c" None [File "go.mod" (Content "module example.com/c")]]))
    as [Hok _].
  rewrite Hok; [reflexivity|]. repeat constructor.
Defined.

(** C6: an index that [BuildModulePathMap] returns has no excluded module
    path among its keys, whatever go.mod files the tree holds. *)
Theorem BuildModulePathMap_no_excluded
    (Join : string → string → string) (modfile_ModulePath : string → string)
    (versionCfg : versionConfig) (root : string) (tree : entry)
    (index : ModulePathMap) (out : list string) (modPath : ModulePath) :
  BuildModulePathMap Join modfile_ModulePath versionCfg root tree
    = (Some index, None, out) →
  modPath ∈ ExcludedModules versionCfg →
  index !! modPath = None.
Proof.
  rewrite BuildModulePathMap_runVisits. intros Hrun Hex.
  pose proof (runVisits_findGoMod_excluded modfile_ModulePath versionCfg
                (visits Join root tree) (mkWalkState ∅ []) modPath Hex
                (lookup_empty _)) as Hinv.
  destruct (runVisits _ _ _) as [[err|] st]; [done|].
  by injection Hrun as <- _.
Qed.

Lemma BuildModulePathMap_no_excluded_witness :
  (<["example.com/a" := "/repo/a/go.mod"]> ∅ : ModulePathMap)
    !! "example.com/internal/tools" = None.
Proof.
  apply (BuildModulePathMap_no_excluded joinSlash declaredModulePath
           (mkVersionConfig ∅ ["example.com/internal/tools"]) "/repo"
           (Dir "repo" None
              [Dir "a" None [File "go.mod" (Content "module example.com/a")];
               Dir "tools" None
                 [File "go.mod" (Content "module example.com/internal/tools")]])
           _ []).
  - reflexivity.
  - apply list_elem_of_here.
Defined.

(** ** The facade *)

Lemma range_ok_empty (range : ModuleSetMap → list (string * ModuleSet)) :
  range_ok range → range ∅ = [].
Proof.
  intros Hrange. apply Permutation_nil_r. by rewrite (Hrange ∅), map_to_list_empty.
Qed.

Lemma readVersioningFile_error (viper : string → viperRun)
    (versioningFilename : string) (err : error) :
  (readVersioningFile viper versioningFilename).2 = Some err →
  (readVersioningFile viper versioningFilename).1 = versionConfig_zero.
Proof. unfold readVersioningFile. by destruct (viper versioningFilename). Qed.

(** C10 as stated fails: the configuration cannot be read and the
    repository holds a go.mod; the module path index of the result is not
    empty. *)
Lemma NewModuleVersioningInfo_read_error_counterexample :
  ¬ (∀ (Join : string → string → string) (modfile_ModulePath : string → string)
       (range : ModuleSetMap → list (string * ModuleSet))
       (viper : string → viperRun)
       (versioningFilename repoRoot : string) (tree : entry) (err : error),
       range_ok range →
       (readVersioningFile viper versioningFilename).2 = Some err →
       ∃ out,
         NewModuleVersioningInfo Join modfile_ModulePath range viper
           versioningFilename repoRoot tree
           = (mkModuleVersioning ∅ ∅ ∅, None, out)).
Proof.
  intros H.
  destruct (H joinSlash declaredModulePath map_to_list
              (λ _, ReadInConfigFails "open versions.yaml: no such file or directory")
              "versions.yaml" "/repo"
              (Dir "repo" None [File "go.mod" (Content "module example.com/root")])
              (Wrapped "error reading versionsConfig file"
                 (OSError "open versions.yaml: no such file or directory")))
    as [out Hrun].
  - by intros m.
  - reflexivity.
  - vm_compute in Hrun. discriminate Hrun.
Qed.

(** C10, amended: where the configuration file cannot be read,
    [NewModuleVersioningInfo] drops that error and goes on with the zero
    configuration: the module set index and the module info index of the
    result are empty, and its module path index is the one
    [BuildModulePathMap] builds from the tree at the root with nothing
    excluded; the error is nil unless that step fails, and then it is the
    error of that step next to the zero [ModuleVersioning]. *)
Theorem NewModuleVersioningInfo_read_error
    (Join : string → string → string) (modfile_ModulePath : string → string)
    (range : ModuleSetMap → list (string * ModuleSet))
    (viper : string → viperRun)
    (versioningFilename repoRoot : string) (tree : entry) (err : error) :
  range_ok range →
  (readVersioningFile viper versioningFilename).2 = Some err →
  NewModuleVersioningInfo Join modfile_ModulePath range viper
    versioningFilename repoRoot tree =
    match BuildModulePathMap Join modfile_ModulePath versionConfig_zero
            repoRoot tree with
    | (_, Some pathErr, out) =>
        (ModuleVersioning_zero,
         Some (Wrapped "Error building module path map for NewModuleVersioningInfo"
                 pathErr),
         out)
    | (modPathMap, None, out) =>
        (mkModuleVersioning ∅ (default ∅ modPathMap) ∅, None, out)
    end.
Proof.
  intros Hrange Hread. unfold NewModuleVersioningInfo.
  pose proof (readVersioningFile_error _ _ _ Hread) as Hzero.
  destruct (readVersioningFile viper versioningFilename) as [vCfg readErr].
  simpl in Hzero. subst vCfg.
  unfold buildModuleSetsMap, buildModuleMap. simpl.
  by rewrite (range_ok_empty range Hrange).
Qed.

Lemma NewModuleVersioningInfo_read_error_witness :
  NewModuleVersioningInfo joinSlash declaredModulePath map_to_list
    (λ _, ReadInConfigFails "open versions.yaml: no such file or directory")
    "versions.yaml" "/repo"
    (Dir "repo" None [File "go.mod" (Content "module example.com/root")])
  = (mkModuleVersioning ∅ (<["example.com/root" := "/repo/go.mod"]> ∅) ∅,
     None, []).
Proof.
  rewrite (NewModuleVersioningInfo_read_error joinSlash declaredModulePath
             map_to_list _ "versions.yaml" "/repo" _
             (Wrapped "error reading versionsConfig file"
                (OSError "open versions.yaml: no such file or directory"))).
  - reflexivity.
  - intros m. reflexivity.
  - reflexivity.
Defined.

(** * Further properties of the package *)

(** ** What a module info index holds *)
Section ModuleInfoContent.

Variable versionCfg : versionConfig.

Lemma buildModuleMap_modules_lookup (setName : string) (moduleSet : ModuleSet)
    (modules : list ModulePath) (modMap modMap' : ModuleInfoMap) :
  buildModuleMap_modules versionCfg setName moduleSet modules modMap
    = inr modMap' →
  ∀ m info,
    modMap' !! m = Some info ↔
    modMap !! m = Some info
    ∨ (m ∈ modules ∧ info = mkModuleInfo setName (Version moduleSet)).
Proof.
  revert modMap. induction modules as [|x rest IH]; intros modMap; simpl.
  - intros [= <-] m info. rewrite elem_of_nil. tauto.
  - destruct (modMap !! x) as [old|] eqn:Hx; [done|].
    destruct (shouldExcludeModule versionCfg x); [done|].
    intros Hrun m info. rewrite (IH _ Hrun), elem_of_cons.
    destruct (decide (x = m)) as [->|Hne].
    + rewrite lookup_insert_eq, Hx. split.
      * intros [[= <-]|[? ->]]; right; auto.
      * intros [?|[_ ->]]; [done|]. by left.
    + rewrite lookup_insert_ne by done. split.
      * intros [?|[? ->]]; auto.
      * intros [?|[[->|?] ->]]; auto. done.
Qed.

Lemma buildModuleMap_sets_lookup (sets : list (string * ModuleSet))
    (modMap modMap' : ModuleInfoMap) :
  buildModuleMap_sets versionCfg sets modMap = inr modMap' →
  ∀ m info,
    modMap' !! m = Some info ↔
    modMap !! m = Some info
    ∨ (∃ setName ms, (setName, ms) ∈ sets ∧ m ∈ Modules ms
                     ∧ info = mkModuleInfo setName (Version ms)).
Proof.
  revert modMap. induction sets as [|[setName moduleSet] rest IH];
    intros modMap; cbn [buildModuleMap_sets].
  - intros [= <-] m info. split; [by left|].
    intros [?|(s & ms & Hin & _)]; [done|]. by apply elem_of_nil in Hin.
  - destruct (buildModuleMap_modules _ _ _ _ _) as [|modMap1] eqn:Hin; [done|].
    intros Hrun m info.
    rewrite (IH _ Hrun), (buildModuleMap_modules_lookup _ _ _ _ _ Hin). split.
    + intros [[?|[Hm ->]]|(s & ms & Hs & Hm & ->)].
      * by left.
      * right. exists setName, moduleSet. split_and!; [by left|done|done].
      * right. exists s, ms. split_and!; [by right|done|done].
    + intros [?|(s & ms & [[= -> ->]|Hs]%elem_of_cons & Hm & ->)].
      * by left; left.
      * by left; right.
      * right. by exists s, ms.
Qed.

End ModuleInfoContent.

(** X1: [buildModuleMap] returns an index, and no error, exactly for the
    configurations in which no module path occurs twice in the lists of the
    sets and no module path of a set is excluded; this does not depend on
    the order in which the sets are visited. *)
Theorem buildModuleMap_succeeds_iff
    (range : ModuleSetMap → list (string * ModuleSet))
    (versionCfg : versionConfig) :
  range_ok range →
  (∃ modMap, buildModuleMap range versionCfg = (Some modMap, None))
  ↔ noDuplicateModule versionCfg ∧ noExcludedModule versionCfg.
Proof.
  intros Hrange. split.
  - intros [modMap Hrun]. by apply (buildModuleMap_success versionCfg range Hrange _ Hrun).
  - intros [Hnd Hnex].
    destruct (buildModuleMap range versionCfg) as [modMap [err|]] eqn:Hrun.
    + exfalso.
      destruct (buildModuleMap_error versionCfg range Hrange err)
        as (_ & _ & Hdup & Hexcl); [by rewrite Hrun|].
      destruct (Hdup Hnex) as (m & a & b & ->).
      by destruct (Hexcl Hnd) as (m' & ?).
    + unfold buildModuleMap in Hrun.
      destruct (buildModuleMap_sets _ _ _) as [|modMap'] eqn:Hsets; [done|].
      injection Hrun as <-. by exists modMap'.
Qed.

Lemma buildModuleMap_succeeds_iff_witness :
  (∃ modMap,
     buildModuleMap map_to_list
       (mkVersionConfig
          (<["stable" := mkModuleSet "v1.0.0" ["example.com/a"]]>
             (<["experimental" := mkModuleSet "v0.1.0" ["example.com/b"]]> ∅))
          ["example.com/tools"])
     = (Some modMap, None))
  ↔ noDuplicateModule
      (mkVersionConfig
         (<["stable" := mkModuleSet "v1.0.0" ["example.com/a"]]>
            (<["experimental" := mkModuleSet "v0.1.0" ["example.com/b"]]> ∅))
         ["example.com/tools"])
    ∧ noExcludedModule
        (mkVersionConfig
           (<["stable" := mkModuleSet "v1.0.0" ["example.com/a"]]>
              (<["experimental" := mkModuleSet "v0.1.0" ["example.com/b"]]> ∅))
           ["example.com/tools"]).
Proof.
  apply (buildModuleMap_succeeds_iff map_to_list). intros m. reflexivity.
Defined.

(** X2: the index that [buildModuleMap] returns is the module sets turned
    round: a module path has an entry exactly if it is in the list of a set,
    and the entry holds the name and the version of that set. *)
Theorem buildModuleMap_index_inverse
    (range : ModuleSetMap → list (string * ModuleSet))
    (versionCfg : versionConfig) (modMap : ModuleInfoMap)
    (m : ModulePath) (info : ModuleInfo) :
  range_ok range →
  buildModuleMap range versionCfg = (Some modMap, None) →
  modMap !! m = Some info ↔
  ∃ setName ms,
    ModuleSets versionCfg !! setName = Some ms ∧ m ∈ Modules ms
    ∧ info = mkModuleInfo setName (Version ms).
Proof.
  intros Hrange. unfold buildModuleMap.
  destruct (buildModuleMap_sets _ _ _) as [|modMap'] eqn:Hsets; [done|].
  intros [= <-]. rewrite (buildModuleMap_sets_lookup _ _ _ _ Hsets).
  rewrite lookup_empty. split.
  - intros [?|(s & ms & Hs & Hm & ->)]; [done|]. exists s, ms.
    split_and!; [|done|done]. by apply (elem_of_range versionCfg range Hrange).
  - intros (s & ms & Hs & Hm & ->). right. exists s, ms.
    split_and!; [|done|done]. by apply (elem_of_range versionCfg range Hrange).
Qed.

Lemma buildModuleMap_index_inverse_witness :
  (<["example.com/a" := mkModuleInfo "stable" "v1.0.0"]> ∅ : ModuleInfoMap)
    !! "example.com/a" = Some (mkModuleInfo "stable" "v1.0.0") ↔
  ∃ setName ms,
    ModuleSets
      (mkVersionConfig
         (<["stable" := mkModuleSet "v1.0.0" ["example.com/a"]]> ∅) [])
      !! setName = Some ms
    ∧ "example.com/a" ∈ Modules ms
    ∧ mkModuleInfo "stable" "v1.0.0" = mkModuleInfo setName (Version ms).
Proof.
  apply (buildModuleMap_index_inverse map_to_list
           (mkVersionConfig
              (<["stable" := mkModuleSet "v1.0.0" ["example.com/a"]]> ∅) [])).
  - intros m. reflexivity.
  - reflexivity.
Defined.

(** X3: the order in which [range] yields the sets has no part in an index
    that is returned: a configuration that gives an index in one order gives
    the same index in every order. *)
Theorem buildModuleMap_order_independent
    (range1 range2 : ModuleSetMap → list (string * ModuleSet))
    (versionCfg : versionConfig) (modMap : ModuleInfoMap) :
  range_ok range1 → range_ok range2 →
  buildModuleMap range1 versionCfg = (Some modMap, None) →
  buildModuleMap range2 versionCfg = (Some modMap, None).
Proof.
  intros Hr1 Hr2 Hrun1.
  pose proof (buildModuleMap_success versionCfg range1 Hr1 _ Hrun1) as Hgood.
  destruct (buildModuleMap range2 versionCfg) as [modMap2 [err|]] eqn:Hrun2.
  - exfalso.
    destruct (buildModuleMap_error versionCfg range2 Hr2 err)
      as (_ & _ & Hdup & Hexcl); [by rewrite Hrun2|].
    destruct Hgood as [Hnd Hnex].
    destruct (Hdup Hnex) as (m & a & b & ->).
    by destruct (Hexcl Hnd) as (m' & ?).
  - assert (∃ modMap', modMap2 = Some modMap') as [modMap' ->].
    { unfold buildModuleMap in Hrun2.
      destruct (buildModuleMap_sets _ _ _); [done|].
      injection Hrun2 as <-. by eexists. }
    do 2 f_equal. apply map_eq. intros m.
    unfold buildModuleMap in Hrun1, Hrun2.
    destruct (buildModuleMap_sets versionCfg (range1 _) ∅) as [|m1] eqn:H1; [done|].
    destruct (buildModuleMap_sets versionCfg (range2 _) ∅) as [|m2] eqn:H2; [done|].
    injection Hrun1 as <-. injection Hrun2 as <-.
    apply option_eq. intros info.
    rewrite (buildModuleMap_sets_lookup _ _ _ _ H1),
      (buildModuleMap_sets_lookup _ _ _ _ H2).
    split; (intros [?|(s & ms & Hs & Hm & ->)]; [by left|]);
      right; exists s, ms; (split_and!; [|done|done]).
    + apply (elem_of_range versionCfg range1 Hr1).
      by apply (elem_of_range versionCfg range2 Hr2).
    + apply (elem_of_range versionCfg range2 Hr2).
      by apply (elem_of_range versionCfg range1 Hr1).
Qed.

Lemma buildModuleMap_order_independent_witness :
  buildModuleMap (λ m, reverse (map_to_list m))
    (mkVersionConfig
       (<["stable" := mkModuleSet "v1.0.0" ["example.com/a"]]>
          (<["experimental" := mkModuleSet "v0.1.0" ["example.com/b"]]> ∅)) [])
  = (Some (<["example.com/a" := mkModuleInfo "stable" "v1.0.0"]>
             (<["example.com/b" := mkModuleInfo "experimental" "v0.1.0"]> ∅)),
     None).
Proof.
  apply (buildModuleMap_order_independent map_to_list (λ m, reverse (map_to_list m))).
  - intros m. reflexivity.
  - intros m. apply reverse_Permutation.
  - reflexivity.
Defined.

(** ** Tag names of module paths *)

(** X4: [moduleFilePathToTagName] sorts its inputs in three: a path that is
    not the root, a slash and a rest is refused as outside the repository,
    whatever its end; a path under the root that does not end in go.mod is
    refused as no manifest path; any other path is converted without
    error. *)
Theorem moduleFilePathToTagName_errors
    (modFilePath : ModuleFilePath) (repoRoot : string) :
  ((∀ rest, modFilePath ≠ repoRoot +:+ "/" +:+ rest) →
   moduleFilePathToTagName modFilePath repoRoot
     = ("", Some (PathOutsideRepoError modFilePath repoRoot)))
  ∧ (∀ rest,
       modFilePath = repoRoot +:+ "/" +:+ rest →
       (∀ t, modFilePath ≠ t +:+ "go.mod") →
       moduleFilePathToTagName modFilePath repoRoot
         = ("", Some (InvalidManifestPathError modFilePath)))
  ∧ (∀ rest t,
       modFilePath = repoRoot +:+ "/" +:+ rest →
       modFilePath = t +:+ "go.mod" →
       (moduleFilePathToTagName modFilePath repoRoot).2 = None).
Proof.
  split_and!.
  - intros Hout. unfold moduleFilePathToTagName.
    destruct (strings.HasPrefix modFilePath (repoRoot +:+ "/")) eqn:Hpre; [|done].
    apply HasPrefix_inv in Hpre. rewrite sapp_assoc in Hpre.
    by destruct (Hout _ Hpre).
  - intros rest Hunder Hend. unfold moduleFilePathToTagName.
    rewrite Hunder at 1. rewrite <- sapp_assoc, HasPrefix_app. simpl.
    destruct (strings.HasSuffix modFilePath "go.mod") eqn:Hsuf; [|done].
    apply HasSuffix_inv in Hsuf. by destruct (Hend _ Hsuf).
  - intros rest t Hunder Hend.
    assert (strings.HasSuffix (repoRoot +:+ "/" +:+ rest) "go.mod" = true) as Hsuf.
    { rewrite <- Hunder, Hend. apply HasSuffix_app. }
    rewrite Hunder, (moduleFilePathToTagName_under_root _ _ Hsuf). done.
Qed.

Lemma modulePathsToFilePaths_loop_found
    (modPaths : list ModulePath) (modPathMap : ModulePathMap)
    (acc paths : list ModuleFilePath) :
  Forall2 (λ m p, modPathMap !! m = Some p) modPaths paths →
  modulePathsToFilePaths_loop modPaths modPathMap acc = (acc ++ paths, None).
Proof.
  intros Hall. revert acc. induction Hall as [|m p ms ps Hm _ IH]; intros acc.
  - simpl. by rewrite app_nil_r.
  - simpl. rewrite Hm, IH. by rewrite <- app_assoc.
Qed.

Lemma modulePathsToFilePaths_loop_inv
    (modPaths : list ModulePath) (modPathMap : ModulePathMap)
    (acc result : list ModuleFilePath) :
  modulePathsToFilePaths_loop modPaths modPathMap acc = (result, None) →
  ∃ paths, result = acc ++ paths
           ∧ Forall2 (λ m p, modPathMap !! m = Some p) modPaths paths.
Proof.
  revert acc. induction modPaths as [|m ms IH]; intros acc; simpl.
  - intros [= <-]. exists []. split; [by rewrite app_nil_r|constructor].
  - destruct (modPathMap !! m) as [p|] eqn:Hm; [|done].
    intros (paths & -> & Hall)%IH. exists (p :: paths). split.
    + by rewrite <- app_assoc.
    + by constructor.
Qed.

Lemma moduleFilePathsToTagNames_loop_converted
    (modFilePaths : list ModuleFilePath) (repoRoot : string)
    (acc tags : list ModuleTagName) :
  Forall2 (λ p t, moduleFilePathToTagName p repoRoot = (t, None))
    modFilePaths tags →
  moduleFilePathsToTagNames_loop modFilePaths repoRoot acc
    = (Some (acc ++ tags), None).
Proof.
  intros Hall. revert acc. induction Hall as [|p t ps ts Hp _ IH]; intros acc.
  - simpl. by rewrite app_nil_r.
  - simpl. rewrite Hp, IH. by rewrite <- app_assoc.
Qed.

Lemma moduleFilePathsToTagNames_loop_inv
    (modFilePaths : list ModuleFilePath) (repoRoot : string)
    (acc result : list ModuleTagName) :
  moduleFilePathsToTagNames_loop modFilePaths repoRoot acc
    = (Some result, None) →
  ∃ tags, result = acc ++ tags
          ∧ Forall2 (λ p t, moduleFilePathToTagName p repoRoot = (t, None))
              modFilePaths tags.
Proof.
  revert acc. induction modFilePaths as [|p ps IH]; intros acc; simpl.
  - intros [= <-]. exists []. split; [by rewrite app_nil_r|constructor].
  - destruct (moduleFilePathToTagName p repoRoot) as [t [err|]] eqn:Hp; [done|].
    intros (tags & -> & Hall)%IH. exists (t :: tags). split.
    + by rewrite <- app_assoc.
    + by constructor.
Qed.

Lemma moduleFilePathsToTagNames_loop_refused
    (before after : list ModuleFilePath) (p : ModuleFilePath)
    (repoRoot : string) (acc tags : list ModuleTagName)
    (t : ModuleTagName) (err : error) :
  Forall2 (λ p t, moduleFilePathToTagName p repoRoot = (t, None)) before tags →
  moduleFilePathToTagName p repoRoot = (t, Some err) →
  moduleFilePathsToTagNames_loop (before ++ p :: after) repoRoot acc
    = (None, Some (Wrapped "could not convert module file path to tag name" err)).
Proof.
  intros Hall Hp. revert acc. induction Hall as [|q u qs us Hq _ IH]; intros acc.
  - simpl. by rewrite Hp.
  - simpl. rewrite Hq. apply IH.
Qed.

Lemma ModulePathsToTagNames_inv
    (modPaths : list ModulePath) (modPathMap : ModulePathMap)
    (repoRoot : string) (tags : list ModuleTagName) :
  ModulePathsToTagNames modPaths modPathMap repoRoot = (Some tags, None) →
  Forall2 (λ m t, ∃ p, modPathMap !! m = Some p
                       ∧ moduleFilePathToTagName p repoRoot = (t, None))
    modPaths tags.
Proof.
  unfold ModulePathsToTagNames, modulePathsToFilePaths, moduleFilePathsToTagNames.
  destruct (modulePathsToFilePaths_loop modPaths modPathMap [])
    as [paths [err|]] eqn:Hpaths; [done|].
  apply modulePathsToFilePaths_loop_inv in Hpaths as (paths' & -> & Hfound).
  simpl.
  destruct (moduleFilePathsToTagNames_loop paths' repoRoot [])
    as [result [err|]] eqn:Htags; [done|].
  intros [= ->].
  apply moduleFilePathsToTagNames_loop_inv in Htags as (tags' & -> & Hconv).
  simpl. clear -Hfound Hconv. revert tags' Hconv.
  induction Hfound as [|m p ms ps Hm _ IH]; intros tags' Hconv.
  - inversion Hconv. constructor.
  - inversion Hconv as [|? t ? ts Hp Hrest]; subst. constructor; [|by apply IH].
    by exists p.
Qed.

Lemma ModulePathsToTagNames_converted
    (modPaths : list ModulePath) (modPathMap : ModulePathMap)
    (repoRoot : string) (tags : list ModuleTagName) :
  Forall2 (λ m t, ∃ p, modPathMap !! m = Some p
                       ∧ moduleFilePathToTagName p repoRoot = (t, None))
    modPaths tags →
  ModulePathsToTagNames modPaths modPathMap repoRoot = (Some tags, None).
Proof.
  unfold ModulePathsToTagNames, modulePathsToFilePaths, moduleFilePathsToTagNames.
  intros Hall.
  assert (∃ paths,
            Forall2 (λ m p, modPathMap !! m = Some p) modPaths paths
            ∧ Forall2 (λ p t, moduleFilePathToTagName p repoRoot = (t, None))
                paths tags) as (paths & Hfound & Hconv).
  { induction Hall as [|m t ms ts (p & Hm & Hp) _ (paths & ? & ?)].
    - exists []. split; constructor.
    - exists (p :: paths). split; by constructor. }
  rewrite (modulePathsToFilePaths_loop_found _ _ [] paths Hfound). simpl.
  by rewrite (moduleFilePathsToTagNames_loop_converted _ _ [] tags Hconv).
Qed.

(** X5: [ModulePathsToTagNames] returns tag names, and no error, exactly
    when every module path has a file path in the index and every such file
    path is converted without error; the tag names are then those of the
    file paths, one per module path and in the order of the module paths. *)
Theorem ModulePathsToTagNames_succeeds_iff
    (modPaths : list ModulePath) (modPathMap : ModulePathMap)
    (repoRoot : string) (tags : list ModuleTagName) :
  ModulePathsToTagNames modPaths modPathMap repoRoot = (Some tags, None)
  ↔ Forall2 (λ m t, ∃ p, modPathMap !! m = Some p
                         ∧ moduleFilePathToTagName p repoRoot = (t, None))
      modPaths tags.
Proof.
  split.
  - apply ModulePathsToTagNames_inv.
  - apply ModulePathsToTagNames_converted.
Qed.

(** X6: the two ways in which [ModulePathsToTagNames] fails.  The module
    paths are all looked up before any file path is converted: the first
    module path without a file path is reported, whatever the file paths of
    the module paths before it.  Where all have file paths, the first file
    path that is refused is reported, with the error of its conversion. *)
Theorem ModulePathsToTagNames_errors
    (modPaths : list ModulePath) (modPathMap : ModulePathMap)
    (repoRoot : string) :
  (∀ before missing after,
     modPaths = before ++ missing :: after →
     (∀ m, m ∈ before → is_Some (modPathMap !! m)) →
     modPathMap !! missing = None →
     ModulePathsToTagNames modPaths modPathMap repoRoot =
       (None,
        Some (Wrapped "could not convert module paths to file paths"
                (UnknownModuleError missing))))
  ∧ (∀ paths before p after tags t err,
       Forall2 (λ m p, modPathMap !! m = Some p) modPaths paths →
       paths = before ++ p :: after →
       Forall2 (λ p t, moduleFilePathToTagName p repoRoot = (t, None))
         before tags →
       moduleFilePathToTagName p repoRoot = (t, Some err) →
       ModulePathsToTagNames modPaths modPathMap repoRoot =
         (None,
          Some (Wrapped "could not convert module file paths to tag names"
                  (Wrapped "could not convert module file path to tag name"
                     err)))).
Proof.
  unfold ModulePathsToTagNames, modulePathsToFilePaths, moduleFilePathsToTagNames.
  split.
  - intros before missing after -> Hall Hmiss.
    by rewrite (modulePathsToFilePaths_loop_missing before after missing).
  - intros paths before p after tags t err Hfound -> Hconv Hp.
    rewrite (modulePathsToFilePaths_loop_found _ _ [] _ Hfound). simpl.
    by rewrite (moduleFilePathsToTagNames_loop_refused before after p
                  repoRoot [] tags t err Hconv Hp).
Qed.

(** X7: from module paths to the tags of a release.  Module paths whose
    go.mod files lie in directories below the root, none of them called
    go.mod or repoRootTag, have these directories as tag names, and the
    directory, a slash and the version as full tags; the module path of the
    go.mod at the root has the version itself as its full tag. *)
Theorem release_tags
    (modPaths : list ModulePath) (dirs : list string)
    (modPathMap : ModulePathMap) (repoRoot version : string)
    (rootModule : ModulePath) :
  Forall2 (λ m dir,
             modPathMap !! m = Some (repoRoot +:+ "/" +:+ dir +:+ "/go.mod")
             ∧ dir ≠ "go.mod" ∧ dir ≠ repoRootTag) modPaths dirs →
  modPathMap !! rootModule = Some (repoRoot +:+ "/go.mod") →
  ∃ tags,
    ModulePathsToTagNames (rootModule :: modPaths) modPathMap repoRoot
      = (Some tags, None)
    ∧ CombineModuleTagNamesAndVersion tags version
        = version :: ((λ dir, dir +:+ "/" +:+ version) <$> dirs).
Proof.
  intros Hdirs Hroot. exists (repoRootTag :: dirs). split.
  - apply ModulePathsToTagNames_converted.
    constructor.
    + exists (repoRoot +:+ "/go.mod"). split; [done|].
      apply moduleFilePathToTagName_root.
    + induction Hdirs as [|m dir ms ds (Hm & Hd & _) _ IH]; constructor; [|done].
      eexists. split; [done|]. by apply moduleFilePathToTagName_dir.
  - rewrite CombineModuleTagNamesAndVersion_fmap. csimpl. f_equal.
    clear Hroot. induction Hdirs as [|m dir ms ds (_ & _ & Hd) _ IH]; [done|].
    csimpl. rewrite IH. f_equal. unfold newFullTag. by destruct (decide _).
Qed.

Lemma release_tags_witness :
  ∃ tags,
    ModulePathsToTagNames ["example.com/root"; "example.com/sdk"]
      (<["example.com/root" := "/repo/go.mod"]>
         (<["example.com/sdk" := "/repo/sdk/go.mod"]> ∅)) "/repo"
      = (Some tags, None)
    ∧ CombineModuleTagNamesAndVersion tags "v1.2.3"
        = "v1.2.3" :: ((λ dir, dir +:+ "/" +:+ "v1.2.3") <$> ["sdk"]).
Proof.
  apply (release_tags ["example.com/sdk"] ["sdk"] _ "/repo" "v1.2.3"
           "example.com/root").
  - constructor; [|constructor]. split_and!; [reflexivity|discriminate|discriminate].
  - reflexivity.
Defined.

(** ** What a module path index holds *)

Lemma first_unreadable (vs : list (string * entry)) :
  Forall (λ v, unreadableManifest v = None) vs
  ∨ ∃ before v after msg,
      vs = before ++ v :: after
      ∧ Forall (λ v, unreadableManifest v = None) before
      ∧ unreadableManifest v = Some msg.
Proof.
  induction vs as [|v vs IH]; [by left; constructor|].
  destruct (unreadableManifest v) as [msg|] eqn:Hv.
  - right. exists [], v, vs, msg. split_and!; [done|constructor|done].
  - destruct IH as [Hall|(before & w & after & msg & -> & Hbefore & Hw)].
    + left. by constructor.
    + right. exists (v :: before), w, after, msg.
      split_and!; [done|by constructor|done].
Qed.

Lemma indexOf_snoc (entries : list (string * string)) (k p : string) :
  indexOf (entries ++ [(k, p)]) = <[k := p]> (indexOf entries).
Proof. unfold indexOf. by rewrite foldl_app. Qed.

(** The index of a list of entries holds, for a key, the value of the last
    entry with that key. *)
Lemma indexOf_lookup (entries : list (string * string)) (k p : string) :
  indexOf entries !! k = Some p ↔
  ∃ before after, entries = before ++ (k, p) :: after ∧ k ∉ after.*1.
Proof.
  induction entries as [|[k' p'] entries IH] using rev_ind.
  - unfold indexOf. simpl. rewrite lookup_empty. split; [done|].
    intros (before & after & Heq & _). by destruct before.
  - rewrite indexOf_snoc. destruct (decide (k' = k)) as [->|Hne].
    + rewrite lookup_insert_eq. split.
      * intros [= ->]. exists entries, []. split; [done|]. apply not_elem_of_nil.
      * intros (before & after & Heq & Hlast).
        destruct after as [|last after _] using rev_ind.
        -- apply app_inj_tail in Heq as [_ [= ->]]. done.
        -- rewrite app_comm_cons, app_assoc in Heq.
           apply app_inj_tail in Heq as [_ <-].
           exfalso. apply Hlast. rewrite fmap_app. apply elem_of_app. right.
           simpl. by left.
    + rewrite lookup_insert_ne by done. rewrite IH. split.
      * intros (before & after & -> & Hlast).
        exists before, (after ++ [(k', p')]). split.
        -- by rewrite <- app_assoc.
        -- rewrite fmap_app. intros [?|Hin]%elem_of_app; [done|].
           simpl in Hin. apply list_elem_of_singleton in Hin. done.
      * intros (before & after & Heq & Hlast).
        destruct after as [|last after _] using rev_ind.
        -- apply app_inj_tail in Heq as [_ [= -> _]]. done.
        -- rewrite app_comm_cons, app_assoc in Heq.
           apply app_inj_tail in Heq as [-> <-].
           exists before, after. split; [done|].
           intros Hin. apply Hlast. rewrite fmap_app. apply elem_of_app. by left.
Qed.

Section PathIndexContent.

Variable Join : string → string → string.
Variable modfile_ModulePath : string → string.
Variable versionCfg : versionConfig.

(** Where [BuildModulePathMap] returns an index, every go.mod that the
    walk reached was read, and the index and the warnings are those of the
    visits. *)
Lemma BuildModulePathMap_success_inv (root : string) (tree : entry)
    (index : ModulePathMap) (out : list string) :
  BuildModulePathMap Join modfile_ModulePath versionCfg root tree
    = (Some index, None, out) →
  Forall (λ v, unreadableManifest v = None) (visits Join root tree)
  ∧ index = indexOf (omap (manifestEntry modfile_ModulePath versionCfg)
                       (visits Join root tree))
  ∧ out = omap walkWarning (visits Join root tree).
Proof.
  rewrite BuildModulePathMap_runVisits.
  destruct (first_unreadable (visits Join root tree))
    as [Hall|(before & v & after & msg & Heq & Hbefore & Hv)].
  - rewrite runVisits_findGoMod_readable by done. by intros [= <- <-].
  - rewrite Heq.
    by rewrite (runVisits_findGoMod_unreadable _ _ before after v msg).
Qed.

Lemma manifestEntry_Some (v : string * entry) (k p : string) :
  manifestEntry modfile_ModulePath versionCfg v = Some (k, p) ↔
  (p = (v.1) ∧ walkError (v.2) = None ∧ filepath.Base (v.1) = "go.mod"
   ∧ (k ∉ ExcludedModules versionCfg)
   ∧ (∃ content, ReadFile (v.1) (v.2) = Content content
                 ∧ modfile_ModulePath content = k)).
Proof.
  destruct v as [q e]. unfold manifestEntry, isManifest. simpl. split.
  - destruct (decide (walkError e = None)) as [Herr|Herr];
      [rewrite (bool_decide_eq_true_2 _ Herr)
      |by rewrite (bool_decide_eq_false_2 _ Herr)].
    destruct (decide (filepath.Base q = "go.mod")) as [Hb|Hb];
      [rewrite (bool_decide_eq_true_2 _ Hb)
      |by rewrite (bool_decide_eq_false_2 _ Hb)].
    simpl. destruct (ReadFile q e) as [msg|content]; [done|].
    destruct (decide _) as [Hex|Hex]; [done|]. intros [= <- <-].
    split_and!; try done.
    + by rewrite <- elem_of_getExcludedModules.
    + by exists content.
  - intros (-> & Herr & Hb & Hex & content & Hread & <-).
    rewrite (bool_decide_eq_true_2 _ Herr), (bool_decide_eq_true_2 _ Hb).
    simpl. rewrite Hread.
    destruct (decide _) as [Hin|Hin]; [|done].
    by apply elem_of_getExcludedModules in Hin.
Qed.

End PathIndexContent.

(** X8: where Walk cannot even start below the root -- lstat fails on the
    root, or the root is a directory whose names cannot be listed --
    [BuildModulePathMap] does not fail: it prints the warning for the root
    and returns the empty index and no error. *)
Theorem BuildModulePathMap_root_unreadable
    (Join : string → string → string) (modfile_ModulePath : string → string)
    (versionCfg : versionConfig) (root : string) (tree : entry) (err : error) :
  walkError tree = Some err →
  BuildModulePathMap Join modfile_ModulePath versionCfg root tree =
    (Some ∅, None,
     ["Warning: file could not be read during filepath.Walk(): "
        +:+ Error err]).
Proof.
  intros Herr. rewrite BuildModulePathMap_runVisits.
  assert (visits Join root tree = [(root, tree)]) as ->.
  { destruct tree as [|name [msg|] names|]; done. }
  simpl. rewrite Herr. reflexivity.
Qed.

Lemma BuildModulePathMap_root_unreadable_witness :
  BuildModulePathMap joinSlash declaredModulePath (mkVersionConfig ∅ [])
    "/nowhere" (NoStat "nowhere" "lstat /nowhere: no such file or directory")
  = (Some ∅, None,
     ["Warning: file could not be read during filepath.Walk(): "
        +:+ Error (OSError "lstat /nowhere: no such file or directory")]).
Proof.
  apply (BuildModulePathMap_root_unreadable joinSlash declaredModulePath).
  reflexivity.
Defined.

(** X9: where two go.mod files declare the same module path, the later one
    in the order of the walk replaces the earlier one: the index that
    [BuildModulePathMap] returns holds, for a module path, the file path of
    the last go.mod reached that declares it and is not excluded. *)
Theorem BuildModulePathMap_last_wins
    (Join : string → string → string) (modfile_ModulePath : string → string)
    (versionCfg : versionConfig) (root : string) (tree : entry)
    (index : ModulePathMap) (out : list string) (k : ModulePath)
    (p : ModuleFilePath) :
  BuildModulePathMap Join modfile_ModulePath versionCfg root tree
    = (Some index, None, out) →
  index !! k = Some p ↔
  ∃ before after,
    omap (manifestEntry modfile_ModulePath versionCfg) (visits Join root tree)
      = before ++ (k, p) :: after
    ∧ k ∉ after.*1.
Proof.
  intros (_ & -> & _)%BuildModulePathMap_success_inv. apply indexOf_lookup.
Qed.

Lemma BuildModulePathMap_last_wins_witness :
  (<["example.com/m" := "/repo/b/go.mod"]> ∅ : ModulePathMap)
    !! "example.com/m" = Some "/repo/b/go.mod" ↔
  ∃ before after,
    omap (manifestEntry declaredModulePath (mkVersionConfig ∅ []))
      (visits joinSlash "/repo"
         (Dir "repo" None
            [Dir "a" None [File "go.mod" (Content "module example.com/m")];
             Dir "b" None [File "go.mod" (Content "module example.com/m")]]))
      = before ++ ("example.com/m", "/repo/b/go.mod") :: after
    ∧ "example.com/m" ∉ after.*1.
Proof.
  apply (BuildModulePathMap_last_wins joinSlash declaredModulePath
           (mkVersionConfig ∅ []) "/repo" _ _ []).
  reflexivity.
Defined.

Lemma BuildModulePathMap_entry_visit
    (Join : string → string → string) (modfile_ModulePath : string → string)
    (versionCfg : versionConfig) (root : string) (tree : entry)
    (index : ModulePathMap) (out : list string) (k p : string) :
  BuildModulePathMap Join modfile_ModulePath versionCfg root tree
    = (Some index, None, out) →
  index !! k = Some p →
  ∃ e content,
    (p, e) ∈ visits Join root tree ∧ walkError e = None
    ∧ filepath.Base p = "go.mod" ∧ ReadFile p e = Content content
    ∧ modfile_ModulePath content = k ∧ k ∉ ExcludedModules versionCfg.
Proof.
  intros (_ & -> & _)%BuildModulePathMap_success_inv.
  intros (before & after & Heq & _)%indexOf_lookup.
  assert ((k, p) ∈ omap (manifestEntry modfile_ModulePath versionCfg)
                     (visits Join root tree)) as Hin.
  { rewrite Heq. apply elem_of_app. right. by left. }
  apply list_elem_of_omap in Hin as ([q e] & Hv & Hentry).
  apply manifestEntry_Some in Hentry
    as (-> & Herr & Hbase & Hex & content & Hread & Hk).
  simpl in *. by exists e, content.
Qed.

(** X10: the keys and values of the index are those of go.mod files on
    disk.  An entry of the index comes from a path the walk reached without
    error, whose base name is go.mod and which could be read: the key is the
    module path that the bytes declare, it is not excluded, and the value is
    that path.  And the module path of every such go.mod is a key of the
    index. *)
Theorem BuildModulePathMap_entries
    (Join : string → string → string) (modfile_ModulePath : string → string)
    (versionCfg : versionConfig) (root : string) (tree : entry)
    (index : ModulePathMap) (out : list string) :
  BuildModulePathMap Join modfile_ModulePath versionCfg root tree
    = (Some index, None, out) →
  (∀ k p,
     index !! k = Some p →
     ∃ e content,
       (p, e) ∈ visits Join root tree ∧ walkError e = None
       ∧ filepath.Base p = "go.mod" ∧ ReadFile p e = Content content
       ∧ modfile_ModulePath content = k ∧ k ∉ ExcludedModules versionCfg)
  ∧ (∀ p e content,
       (p, e) ∈ visits Join root tree → walkError e = None →
       filepath.Base p = "go.mod" → ReadFile p e = Content content →
       modfile_ModulePath content ∉ ExcludedModules versionCfg →
       is_Some (index !! modfile_ModulePath content)).
Proof.
  intros Hrun. split.
  - intros k p. by apply (BuildModulePathMap_entry_visit _ _ _ _ _ _ _ _ _ Hrun).
  - apply BuildModulePathMap_success_inv in Hrun as (_ & -> & _).
    intros p e content Hv Herr Hbase Hread Hex.
    assert ((modfile_ModulePath content, p)
              ∈ omap (manifestEntry modfile_ModulePath versionCfg)
                  (visits Join root tree)) as Hin.
    { apply list_elem_of_omap. exists (p, e). split; [done|].
      apply manifestEntry_Some. simpl. split_and!; try done. by exists content. }
    set (entries := omap _ _) in *. clearbody entries.
    induction entries as [|[k' p'] entries IH] using rev_ind.
    + by apply elem_of_nil in Hin.
    + rewrite indexOf_snoc.
      destruct (decide (k' = modfile_ModulePath content)) as [->|Hne].
      * rewrite lookup_insert_eq. by eexists.
      * rewrite lookup_insert_ne by done. apply IH.
        apply elem_of_app in Hin as [?|Hin]; [done|].
        apply list_elem_of_singleton in Hin. by injection Hin as <- _.
Qed.

Lemma BuildModulePathMap_entries_witness :
  (∀ k p,
     (<["example.com/a" := "/repo/a/go.mod"]> ∅ : ModulePathMap) !! k = Some p →
     ∃ e content,
       (p, e) ∈ visits joinSlash "/repo"
                  (Dir "repo" None
                     [Dir "a" None [File "go.mod" (Content "module example.com/a")];
                      File "README.md" (Content "docs")])
       ∧ walkError e = None
       ∧ filepath.Base p = "go.mod" ∧ ReadFile p e = Content content
       ∧ declaredModulePath content = k
       ∧ k ∉ ExcludedModules (mkVersionConfig ∅ []))
  ∧ (∀ p e content,
       (p, e) ∈ visits joinSlash "/repo"
                  (Dir "repo" None
                     [Dir "a" None [File "go.mod" (Content "module example.com/a")];
                      File "README.md" (Content "docs")]) →
       walkError e = None →
       filepath.Base p = "go.mod" → ReadFile p e = Content content →
       declaredModulePath content ∉ ExcludedModules (mkVersionConfig ∅ []) →
       is_Some ((<["example.com/a" := "/repo/a/go.mod"]> ∅ : ModulePathMap)
                  !! declaredModulePath content)).
Proof.
  apply (BuildModulePathMap_entries joinSlash declaredModulePath
           (mkVersionConfig ∅ []) "/repo" _ _ []).
  reflexivity.
Defined.

(** ** The paths of the index and their tag names *)
Section IndexPaths.

Import strings.

Lemma hasSeparator_app (a b : string) :
  filepath.hasSeparator (a +:+ b)
    = filepath.hasSeparator a || filepath.hasSeparator b.
Proof.
  induction a as [|c a IH]; [done|]. rewrite sapp_cons. simpl.
  by rewrite IH, orb_assoc.
Qed.

Lemma stripTrailingSlashes_plain (n : string) :
  filepath.hasSeparator n = false → filepath.stripTrailingSlashes n = n.
Proof.
  induction n as [|c n IH]; [done|]. simpl.
  intros [Hc Hn]%orb_false_iff. rewrite (IH Hn), Hc. by destruct n.
Qed.

Lemma stripTrailingSlashes_app_plain (a n : string) :
  n ≠ "" → filepath.hasSeparator n = false →
  filepath.stripTrailingSlashes (a +:+ n) = a +:+ n.
Proof.
  intros Hne Hn. induction a as [|c a IH].
  - by apply stripTrailingSlashes_plain.
  - rewrite sapp_cons. simpl. rewrite IH.
    destruct (a +:+ n) eqn:Heq; [|done].
    destruct a; [by rewrite sapp_nil_l in Heq|done].
Qed.

Lemma lastElement_join (d n : string) :
  filepath.hasSeparator n = false →
  filepath.lastElement (d +:+ "/" +:+ n) = n.
Proof.
  intros Hn. induction d as [|c d IH].
  - rewrite sapp_nil_l, sapp_cons, sapp_nil_l. simpl. by rewrite Hn.
  - rewrite sapp_cons. simpl. rewrite hasSeparator_app. simpl.
    rewrite orb_true_r. exact IH.
Qed.

(** The base name of a directory path, a slash and a plain name is the
    name. *)
Lemma Base_join (d n : string) :
  plainName n → filepath.Base (d +:+ "/" +:+ n) = n.
Proof.
  intros [Hne Hn]. unfold filepath.Base.
  destruct (decide (d +:+ "/" +:+ n = "")) as [Heq|_].
  { by destruct d. }
  rewrite <- sapp_assoc, stripTrailingSlashes_app_plain by done.
  rewrite sapp_assoc, lastElement_join by done.
  by destruct (decide (n = "")).
Qed.

Variable Join : string → string → string.

(** The paths of the visits below a path: the path itself, or the path, a
    slash, maybe directories between, and a plain name. *)
Lemma visits_paths (e : entry) :
  ∀ path p e',
    plainBelow e → slashJoined Join path e →
    (p, e') ∈ visits Join path e →
    (p = path ∧ e' = e)
    ∨ ∃ n, plainName n
           ∧ (p = path +:+ "/" +:+ n
              ∨ ∃ mid, p = path +:+ "/" +:+ mid +:+ "/" +:+ n).
Proof.
  induction e as [name c|name listing names IH|name err] using entry_ind;
    intros path p e' Hplain Hjoin Hin.
  - apply list_elem_of_singleton in Hin as [= -> ->]. by left.
  - destruct listing as [msg|].
    { apply list_elem_of_singleton in Hin as [= -> ->]. by left. }
    rewrite visits_Dir in Hin. apply elem_of_cons in Hin as [[= -> ->]|Hin];
      [by left|].
    right. change (plainNames names) in Hplain.
    change (slashJoinedNames Join path names) in Hjoin.
    induction IH as [|child rest Hchild _ IHrest]; [by apply elem_of_nil in Hin|].
    destruct Hplain as (Hname & Hbelow & Hrest).
    destruct Hjoin as (Hslash & Hjoinchild & Hjoinrest).
    change (visitsNames Join path (child :: rest))
      with (visits Join (Join path (entry_name child)) child
              ++ visitsNames Join path rest) in Hin.
    apply elem_of_app in Hin as [Hin|Hin]; [|by apply IHrest].
    rewrite Hslash in Hin.
    destruct (Hchild _ _ _ Hbelow Hjoinchild Hin)
      as [[-> ->]|(n & Hn & [->| [mid ->]])].
    + exists (entry_name child). split; [done|]. by left.
    + exists n. split; [done|]. right. exists (entry_name child).
      by rewrite !sapp_assoc.
    + exists n. split; [done|]. right. exists (entry_name child +:+ "/" +:+ mid).
      by rewrite !sapp_assoc.
  - apply list_elem_of_singleton in Hin as [= -> ->]. by left.
Qed.

End IndexPaths.

(** X11: what [BuildModulePathMap] records, [moduleFilePathToTagName]
    accepts.  Where the joins that the walk makes, of the path of a
    directory it lists and the name of an entry, put a slash between the
    two, the names of the entries are plain and the root is a directory,
    every file path of the index is the root, a slash, maybe directories,
    and go.mod; its conversion against the same root gives a tag name and no
    error.  Nothing is asked of Join at other arguments. *)
Theorem BuildModulePathMap_paths_convert
    (Join : string → string → string) (modfile_ModulePath : string → string)
    (versionCfg : versionConfig) (root : string) (tree : entry)
    (index : ModulePathMap) (out : list string) (k : ModulePath)
    (p : ModuleFilePath) :
  slashJoined Join root tree →
  plainBelow tree → IsDir tree = true →
  BuildModulePathMap Join modfile_ModulePath versionCfg root tree
    = (Some index, None, out) →
  index !! k = Some p →
  (p = root +:+ "/go.mod" ∨ ∃ dir, p = root +:+ "/" +:+ dir +:+ "/go.mod")
  ∧ ∃ tag, moduleFilePathToTagName p root = (tag, None).
Proof.
  intros HJoin Hplain Hdir Hrun Hk.
  destruct (BuildModulePathMap_entry_visit _ _ _ _ _ _ _ _ _ Hrun Hk)
    as (e & content & Hv & _ & Hbase & Hread & _).
  destruct (visits_paths Join tree root p e Hplain HJoin Hv)
    as [[-> ->]|(n & Hn & Hform)].
  { by destruct tree. }
  assert (n = "go.mod") as ->.
  { destruct Hform as [->|[mid ->]].
    - by rewrite Base_join in Hbase.
    - assert (root +:+ "/" +:+ mid +:+ "/" +:+ n
              = (root +:+ "/" +:+ mid) +:+ "/" +:+ n) as Hassoc
        by (by rewrite !sapp_assoc).
      rewrite Hassoc in Hbase. by rewrite Base_join in Hbase. }
  destruct Hform as [->|[mid ->]].
  - split; [by left|]. exists repoRootTag. apply moduleFilePathToTagName_root.
  - split; [right; by exists mid|].
    rewrite moduleFilePathToTagName_under_root.
    + by eexists.
    + rewrite <- !sapp_assoc. apply HasSuffix_app.
Qed.

(** A Join that cleans its result, as [filepath.Join] does for an empty
    directory path, and puts a slash elsewhere: the theorem applies to it
    for the walk of a root that is not empty. *)
Lemma BuildModulePathMap_paths_convert_witness :
  ("/repo/sdk/metric/go.mod" = "/repo" +:+ "/go.mod"
   ∨ ∃ dir, "/repo/sdk/metric/go.mod" = "/repo" +:+ "/" +:+ dir +:+ "/go.mod")
  ∧ ∃ tag, moduleFilePathToTagName "/repo/sdk/metric/go.mod" "/repo" = (tag, None).
Proof.
  apply (BuildModulePathMap_paths_convert
           (λ dir name, if decide (dir = "") then name else dir +:+ "/" +:+ name)
           declaredModulePath
           (mkVersionConfig ∅ []) "/repo"
           (Dir "repo" None
              [Dir "sdk" None
                 [Dir "metric" None
                    [File "go.mod" (Content "module example.com/sdk/metric")]]])
           (<["example.com/sdk/metric" := "/repo/sdk/metric/go.mod"]> ∅) []
           "example.com/sdk/metric").
  - cbv. repeat split.
  - cbv. repeat split; discriminate.
  - reflexivity.
  - reflexivity.
  - reflexivity.
Defined.

(** ** The facade, with a configuration that was read *)
Section FacadeFacts.

Variable Join : string → string → string.
Variable modfile_ModulePath : string → string.
Variable range : ModuleSetMap → list (string * ModuleSet).
Variable viper : string → viperRun.

Lemma buildModuleMap_result (versionCfg : versionConfig)
    (modMap : option ModuleInfoMap) :
  buildModuleMap range versionCfg = (modMap, None) → is_Some modMap.
Proof.
  unfold buildModuleMap. destruct (buildModuleMap_sets _ _ _); [done|].
  intros [= <-]. by eexists.
Qed.

Lemma BuildModulePathMap_result (versionCfg : versionConfig) (root : string)
    (tree : entry) (index : option ModulePathMap) (out : list string) :
  BuildModulePathMap Join modfile_ModulePath versionCfg root tree
    = (index, None, out) → is_Some index.
Proof.
  unfold BuildModulePathMap. destruct (filepath.Walk _ _ _ _ _) as [[err|] st];
    [done|]. intros [= <- _]. by eexists.
Qed.

(** A result without error is made of the results of the three steps. *)
Lemma NewModuleVersioningInfo_success_inv (versionCfg : versionConfig)
    (versioningFilename repoRoot : string) (tree : entry)
    (mv : ModuleVersioning) (out : list string) :
  viper versioningFilename = Unmarshalled versionCfg →
  NewModuleVersioningInfo Join modfile_ModulePath range viper
    versioningFilename repoRoot tree = (mv, None, out) →
  ∃ modInfoMap modPathMap,
    buildModuleMap range versionCfg = (Some modInfoMap, None)
    ∧ BuildModulePathMap Join modfile_ModulePath versionCfg repoRoot tree
        = (Some modPathMap, None, out)
    ∧ mv = mkModuleVersioning (ModuleSets versionCfg) modPathMap modInfoMap.
Proof.
  intros Hviper. unfold NewModuleVersioningInfo, readVersioningFile.
  rewrite Hviper. simpl.
  destruct (buildModuleMap range versionCfg) as [modInfoMap [err|]] eqn:Hinfo;
    [done|].
  destruct (buildModuleMap_result _ _ Hinfo) as [infoMap ->].
  destruct (BuildModulePathMap _ _ _ _ _) as [[modPathMap [err|]] out']
    eqn:Hpath; [done|].
  destruct (BuildModulePathMap_result _ _ _ _ _ Hpath) as [pathMap ->].
  intros [= <- <-]. by exists infoMap, pathMap.
Qed.

End FacadeFacts.

(** X12: [NewModuleVersioningInfo] fails as a whole: next to an error the
    result is the zero [ModuleVersioning], never one with some of its
    indices filled; the error is that of the module info step, before
    anything was printed, or that of the module path step. *)
Theorem NewModuleVersioningInfo_atomic
    (Join : string → string → string) (modfile_ModulePath : string → string)
    (range : ModuleSetMap → list (string * ModuleSet))
    (viper : string → viperRun)
    (versioningFilename repoRoot : string) (tree : entry)
    (mv : ModuleVersioning) (err : error) (out : list string) :
  NewModuleVersioningInfo Join modfile_ModulePath range viper
    versioningFilename repoRoot tree = (mv, Some err, out) →
  mv = ModuleVersioning_zero
  ∧ ((∃ cause,
        err = Wrapped "Error building module info map for NewModuleVersioningInfo"
                cause
        ∧ out = [])
     ∨ (∃ cause,
          err = Wrapped "Error building module path map for NewModuleVersioningInfo"
                  cause)).
Proof.
  unfold NewModuleVersioningInfo.
  destruct (readVersioningFile viper versioningFilename) as [vCfg readErr].
  simpl.
  destruct (buildModuleMap range vCfg) as [modInfoMap [infoErr|]].
  - intros [= <- <- <-]. split; [done|]. left. by eexists.
  - destruct (BuildModulePathMap _ _ _ _ _) as [[modPathMap [pathErr|]] out'].
    + intros [= <- <- <-]. split; [done|]. right. by eexists.
    + done.
Qed.

Lemma NewModuleVersioningInfo_atomic_witness :
  ModuleVersioning_zero = ModuleVersioning_zero
  ∧ ((∃ cause,
        Wrapped "Error building module info map for NewModuleVersioningInfo"
          (DuplicateModuleError "example.com/a" "stable" "stable")
        = Wrapped "Error building module info map for NewModuleVersioningInfo"
            cause
        ∧ @nil string = [])
     ∨ (∃ cause,
          Wrapped "Error building module info map for NewModuleVersioningInfo"
            (DuplicateModuleError "example.com/a" "stable" "stable")
          = Wrapped "Error building module path map for NewModuleVersioningInfo"
              cause)).
Proof.
  apply (NewModuleVersioningInfo_atomic joinSlash declaredModulePath map_to_list
           (λ _, Unmarshalled
                   (mkVersionConfig
                      (<["stable" := mkModuleSet "v1.0.0"
                                       ["example.com/a"; "example.com/a"]]> ∅)
                      []))
           "versions.yaml" "/repo"
           (Dir "repo" None [File "go.mod" (Content "module example.com/a")])).
  reflexivity.
Defined.

(** X13: the indices of a [ModuleVersioning] that was built from a
    configuration agree with it and with each other.  [GetModuleSet] finds
    exactly the sets of the configuration, and reports any other name; the
    module info index has an entry for a module path exactly if the path is
    in the list of a set of the module set index, with the name and version
    of that set. *)
Theorem NewModuleVersioningInfo_indices
    (Join : string → string → string) (modfile_ModulePath : string → string)
    (range : ModuleSetMap → list (string * ModuleSet))
    (viper : string → viperRun) (versionCfg : versionConfig)
    (versioningFilename repoRoot : string) (tree : entry)
    (mv : ModuleVersioning) (out : list string) :
  range_ok range →
  viper versioningFilename = Unmarshalled versionCfg →
  NewModuleVersioningInfo Join modfile_ModulePath range viper
    versioningFilename repoRoot tree = (mv, None, out) →
  (∀ name ms,
     GetModuleSet mv name = (ms, None) ↔ ModuleSets versionCfg !! name = Some ms)
  ∧ (∀ name,
       ModuleSets versionCfg !! name = None →
       GetModuleSet mv name = (mkModuleSet "" [], Some (UnknownSetError name)))
  ∧ (∀ m info,
       ModInfoMap mv !! m = Some info ↔
       ∃ setName ms,
         ModSetMap mv !! setName = Some ms ∧ m ∈ Modules ms
         ∧ info = mkModuleInfo setName (Version ms)).
Proof.
  intros Hrange Hviper Hrun.
  destruct (NewModuleVersioningInfo_success_inv _ _ _ _ _ _ _ _ _ _ Hviper Hrun)
    as (modInfoMap & modPathMap & Hinfo & _ & ->).
  unfold GetModuleSet. simpl. split_and!.
  - intros name ms. destruct (ModuleSets versionCfg !! name); split; congruence.
  - intros name ->. done.
  - intros m info. unfold buildModuleMap in Hinfo.
    destruct (buildModuleMap_sets _ _ _) as [|modMap'] eqn:Hsets; [done|].
    injection Hinfo as <-.
    rewrite (buildModuleMap_sets_lookup _ _ _ _ Hsets), lookup_empty. split.
    + intros [?|(s & ms & Hs & Hm & ->)]; [done|]. exists s, ms.
      split_and!; [|done|done]. by apply (elem_of_range versionCfg range Hrange).
    + intros (s & ms & Hs & Hm & ->). right. exists s, ms.
      split_and!; [|done|done]. by apply (elem_of_range versionCfg range Hrange).
Qed.

Lemma NewModuleVersioningInfo_indices_witness :
  (∀ name ms,
     GetModuleSet
       (mkModuleVersioning
          (<["stable" := mkModuleSet "v1.0.0" ["example.com/a"]]> ∅)
          (<["example.com/a" := "/repo/go.mod"]> ∅)
          (<["example.com/a" := mkModuleInfo "stable" "v1.0.0"]> ∅)) name
       = (ms, None)
     ↔ ModuleSets
         (mkVersionConfig
            (<["stable" := mkModuleSet "v1.0.0" ["example.com/a"]]> ∅) [])
         !! name = Some ms)
  ∧ (∀ name,
       ModuleSets
         (mkVersionConfig
            (<["stable" := mkModuleSet "v1.0.0" ["example.com/a"]]> ∅) [])
         !! name = None →
       GetModuleSet
         (mkModuleVersioning
            (<["stable" := mkModuleSet "v1.0.0" ["example.com/a"]]> ∅)
            (<["example.com/a" := "/repo/go.mod"]> ∅)
            (<["example.com/a" := mkModuleInfo "stable" "v1.0.0"]> ∅)) name
         = (mkModuleSet "" [], Some (UnknownSetError name)))
  ∧ (∀ m info,
       ModInfoMap
         (mkModuleVersioning
            (<["stable" := mkModuleSet "v1.0.0" ["example.com/a"]]> ∅)
            (<["example.com/a" := "/repo/go.mod"]> ∅)
            (<["example.com/a" := mkModuleInfo "stable" "v1.0.0"]> ∅)) !! m
         = Some info ↔
       ∃ setName ms,
         ModSetMap
           (mkModuleVersioning
              (<["stable" := mkModuleSet "v1.0.0" ["example.com/a"]]> ∅)
              (<["example.com/a" := "/repo/go.mod"]> ∅)
              (<["example.com/a" := mkModuleInfo "stable" "v1.0.0"]> ∅))
           !! setName = Some ms
         ∧ m ∈ Modules ms
         ∧ info = mkModuleInfo setName (Version ms)).
Proof.
  apply (NewModuleVersioningInfo_indices joinSlash declaredModulePath map_to_list
           (λ _, Unmarshalled
                   (mkVersionConfig
                      (<["stable" := mkModuleSet "v1.0.0" ["example.com/a"]]> ∅)
                      []))
           _ "versions.yaml" "/repo"
           (Dir "repo" None [File "go.mod" (Content "module example.com/a")])
           _ []).
  - intros m. reflexivity.
  - reflexivity.
  - reflexivity.
Defined.

(** X14: an excluded module path surfaces in none of the three indices of a
    [ModuleVersioning] that was built from a configuration: it is in the
    list of no set of the module set index, and it is a key neither of the
    module info index nor of the module path index, even with its go.mod on
    disk. *)
Theorem NewModuleVersioningInfo_excluded
    (Join : string → string → string) (modfile_ModulePath : string → string)
    (range : ModuleSetMap → list (string * ModuleSet))
    (viper : string → viperRun) (versionCfg : versionConfig)
    (versioningFilename repoRoot : string) (tree : entry)
    (mv : ModuleVersioning) (out : list string) (modPath : ModulePath) :
  range_ok range →
  viper versioningFilename = Unmarshalled versionCfg →
  NewModuleVersioningInfo Join modfile_ModulePath range viper
    versioningFilename repoRoot tree = (mv, None, out) →
  modPath ∈ ExcludedModules versionCfg →
  (∀ setName ms, ModSetMap mv !! setName = Some ms → modPath ∉ Modules ms)
  ∧ ModInfoMap mv !! modPath = None
  ∧ ModPathMap mv !! modPath = None.
Proof.
  intros Hrange Hviper Hrun Hex.
  destruct (NewModuleVersioningInfo_success_inv _ _ _ _ _ _ _ _ _ _ Hviper Hrun)
    as (modInfoMap & modPathMap & Hinfo & Hpath & ->).
  simpl.
  destruct (buildModuleMap_success versionCfg range Hrange _ Hinfo) as [_ Hno].
  split_and!.
  - intros s ms Hs Hm. by apply (Hno s ms modPath Hs Hm).
  - unfold buildModuleMap in Hinfo.
    destruct (buildModuleMap_sets _ _ _) as [|modMap'] eqn:Hsets; [done|].
    injection Hinfo as <-.
    destruct (modMap' !! modPath) as [info|] eqn:Hlookup; [|done].
    apply (buildModuleMap_sets_lookup _ _ _ _ Hsets) in Hlookup
      as [Hempty|(s & ms & Hs & Hm & _)].
    + by rewrite lookup_empty in Hempty.
    + apply (elem_of_range versionCfg range Hrange) in Hs.
      by destruct (Hno s ms modPath Hs Hm).
  - rewrite BuildModulePathMap_runVisits in Hpath.
    pose proof (runVisits_findGoMod_excluded modfile_ModulePath versionCfg
                  (visits Join repoRoot tree) (mkWalkState ∅ []) modPath Hex
                  (lookup_empty _)) as Hinv.
    destruct (runVisits _ _ _) as [[err|] st]; [done|].
    by injection Hpath as <- _.
Qed.

Lemma NewModuleVersioningInfo_excluded_witness :
  (∀ setName ms,
     ModSetMap
       (mkModuleVersioning
          (<["stable" := mkModuleSet "v1.0.0" ["example.com/a"]]> ∅)
          (<["example.com/a" := "/repo/go.mod"]> ∅)
          (<["example.com/a" := mkModuleInfo "stable" "v1.0.0"]> ∅))
       !! setName = Some ms →
     "example.com/tools" ∉ Modules ms)
  ∧ ModInfoMap
      (mkModuleVersioning
         (<["stable" := mkModuleSet "v1.0.0" ["example.com/a"]]> ∅)
         (<["example.com/a" := "/repo/go.mod"]> ∅)
         (<["example.com/a" := mkModuleInfo "stable" "v1.0.0"]> ∅))
      !! "example.com/tools" = None
  ∧ ModPathMap
      (mkModuleVersioning
         (<["stable" := mkModuleSet "v1.0.0" ["example.com/a"]]> ∅)
         (<["example.com/a" := "/repo/go.mod"]> ∅)
         (<["example.com/a" := mkModuleInfo "stable" "v1.0.0"]> ∅))
      !! "example.com/tools" = None.
Proof.
  apply (NewModuleVersioningInfo_excluded joinSlash declaredModulePath map_to_list
           (λ _, Unmarshalled
                   (mkVersionConfig
                      (<["stable" := mkModuleSet "v1.0.0" ["example.com/a"]]> ∅)
                      ["example.com/tools"]))
           (mkVersionConfig
              (<["stable" := mkModuleSet "v1.0.0" ["example.com/a"]]> ∅)
              ["example.com/tools"])
           "versions.yaml" "/repo"
           (Dir "repo" None
              [File "go.mod" (Content "module example.com/a");
               Dir "tools" None
                 [File "go.mod" (Content "module example.com/tools")]])
           _ []).
  - intros m. reflexivity.
  - reflexivity.
  - reflexivity.
  - apply list_elem_of_here.
Defined.

(** ** The root of the repository *)
Section RepoRootFacts.

Variable Join : string → string → string.
Variable Dir_ : string → string.
Variable Stat : string → statResult.

Lemma climbs_step (dir : string) (n : nat) :
  climbs Join Dir_ Stat dir (S n) →
  (∃ msg, Stat (Join dir ".git") = StatNotExist msg)
  ∧ strings.HasSuffix (Dir_ dir) "/" = false
  ∧ climbs Join Dir_ Stat (Dir_ dir) n.
Proof.
  intros Hclimb. destruct (Hclimb 0) as [Hstat Hsuf]; [lia|].
  split_and!; [done|done|].
  intros k Hk. destruct (Hclimb (S k)) as [Hs Hp]; [lia|].
  by rewrite !Nat.iter_succ_r in *.
Qed.

(** The loop climbs over the directories without [.git] and then does what
    one more turn does at the directory it has reached. *)
Lemma FindRepoRoot_loop_climb (start : string) (n : nat) :
  ∀ dir fuel,
    climbs Join Dir_ Stat dir n →
    FindRepoRoot_loop Join Dir_ Stat (n + fuel) start dir
      = FindRepoRoot_loop Join Dir_ Stat fuel start (Nat.iter n Dir_ dir).
Proof.
  induction n as [|n IH]; intros dir fuel Hclimb; [done|].
  apply climbs_step in Hclimb as ([msg Hstat] & Hsuf & Hrest).
  simpl. rewrite Hstat, Hsuf, (IH _ _ Hrest).
  by rewrite <- Nat.iter_succ_r.
Qed.

End RepoRootFacts.

(** X15: [FindRepoRoot] goes up from the working directory, parent by
    parent, and stops at the first directory for which the answer on its
    [.git] is not that it does not exist.  After [n] directories without
    [.git], within the bound on the turns: if [.git] is there, that
    directory is the result, the nearest one from the working directory; if
    asking for it fails in another way, that error is the result; if it is
    not there and the parent ends in a separator, the search ends with the
    error that names the working directory, and the parent is never asked. *)
Theorem FindRepoRoot_outcome
    (Join : string → string → string) (Dir_ : string → string)
    (Stat : string → statResult) (start : string) (n fuel : nat) :
  climbs Join Dir_ Stat start n → n < fuel →
  (Stat (Join (Nat.iter n Dir_ start) ".git") = StatOk →
   FindRepoRoot Join Dir_ (Cwd start) Stat fuel
     = Some (Nat.iter n Dir_ start, None))
  ∧ (∀ msg,
       Stat (Join (Nat.iter n Dir_ start) ".git") = StatError msg →
       FindRepoRoot Join Dir_ (Cwd start) Stat fuel
         = Some ("", Some (RootOSError msg)))
  ∧ (∀ msg,
       Stat (Join (Nat.iter n Dir_ start) ".git") = StatNotExist msg →
       strings.HasSuffix (Nat.iter (S n) Dir_ start) "/" = true →
       FindRepoRoot Join Dir_ (Cwd start) Stat fuel
         = Some ("", Some (NoEnclosingRepository start))).
Proof.
  intros Hclimb Hfuel. unfold FindRepoRoot.
  replace fuel with (n + S (fuel - S n)) by lia.
  rewrite (FindRepoRoot_loop_climb Join Dir_ Stat start n start _ Hclimb).
  simpl. split_and!.
  - by intros ->.
  - by intros msg ->.
  - intros msg -> Hsuf. by rewrite Hsuf.
Qed.

Lemma FindRepoRoot_outcome_witness :
  (StatOk = StatOk →
   FindRepoRoot joinSlash
     (λ dir, if decide (dir = "/repo/sdk/metric") then "/repo/sdk"
             else if decide (dir = "/repo/sdk") then "/repo" else "/")
     (Cwd "/repo/sdk/metric")
     (λ path, if decide (path = "/repo/.git") then StatOk
              else StatNotExist "no such file or directory") 5
     = Some ("/repo", None))
  ∧ (∀ msg,
       StatOk = StatError msg →
       FindRepoRoot joinSlash
         (λ dir, if decide (dir = "/repo/sdk/metric") then "/repo/sdk"
                 else if decide (dir = "/repo/sdk") then "/repo" else "/")
         (Cwd "/repo/sdk/metric")
         (λ path, if decide (path = "/repo/.git") then StatOk
                  else StatNotExist "no such file or directory") 5
         = Some ("", Some (RootOSError msg)))
  ∧ (∀ msg,
       StatOk = StatNotExist msg →
       strings.HasSuffix "/" "/" = true →
       FindRepoRoot joinSlash
         (λ dir, if decide (dir = "/repo/sdk/metric") then "/repo/sdk"
                 else if decide (dir = "/repo/sdk") then "/repo" else "/")
         (Cwd "/repo/sdk/metric")
         (λ path, if decide (path = "/repo/.git") then StatOk
                  else StatNotExist "no such file or directory") 5
         = Some ("", Some (NoEnclosingRepository "/repo/sdk/metric"))).
Proof.
  assert (climbs joinSlash
            (λ dir, if decide (dir = "/repo/sdk/metric") then "/repo/sdk"
                    else if decide (dir = "/repo/sdk") then "/repo" else "/")
            (λ path, if decide (path = "/repo/.git") then StatOk
                     else StatNotExist "no such file or directory")
            "/repo/sdk/metric" 2) as Hclimb.
  { intros [|[|k]] Hk; [split; [by eexists|reflexivity]..|lia]. }
  assert (2 < 5) as Hfuel by lia.
  exact (FindRepoRoot_outcome joinSlash _ _ "/repo/sdk/metric" 2 5 Hclimb Hfuel).
Defined.

(** X16: [ChangeToRepoRoot] changes to the directory that [FindRepoRoot]
    finds: after [n] directories without [.git] and with [.git] in the next
    one, it prints its line, hands that directory, the nearest enclosing
    root, to [os.Chdir] and returns it without error. *)
Theorem ChangeToRepoRoot_nearest
    (Join : string → string → string) (Dir_ : string → string)
    (Stat : string → statResult) (start : string) (n fuel : nat) :
  climbs Join Dir_ Stat start n → n < fuel →
  Stat (Join (Nat.iter n Dir_ start) ".git") = StatOk →
  ChangeToRepoRoot Join Dir_ (Cwd start) Stat fuel
    = Some (Nat.iter n Dir_ start, None,
            ["Changing to root directory..."], [Nat.iter n Dir_ start]).
Proof.
  intros Hclimb Hfuel Hgit. unfold ChangeToRepoRoot, FindRepoRoot.
  replace fuel with (n + S (fuel - S n)) by lia.
  rewrite (FindRepoRoot_loop_climb Join Dir_ Stat start n start _ Hclimb).
  simpl. by rewrite Hgit.
Qed.

Lemma ChangeToRepoRoot_nearest_witness :
  ChangeToRepoRoot joinSlash
    (λ dir, if decide (dir = "/repo/sdk") then "/repo" else "/")
    (Cwd "/repo/sdk")
    (λ path, if decide (path = "/repo/.git") then StatOk
             else StatNotExist "no such file or directory") 3
  = Some ("/repo", None, ["Changing to root directory..."], ["/repo"]).
Proof.
  assert (climbs joinSlash
            (λ dir, if decide (dir = "/repo/sdk") then "/repo" else "/")
            (λ path, if decide (path = "/repo/.git") then StatOk
                     else StatNotExist "no such file or directory")
            "/repo/sdk" 1) as Hclimb.
  { intros [|k] Hk; [split; [by eexists|reflexivity]|lia]. }
  assert (1 < 3) as Hfuel by lia.
  exact (ChangeToRepoRoot_nearest joinSlash _ _ "/repo/sdk" 1 3 Hclimb Hfuel
           eq_refl).
Defined.

(** ** Stable versions, once more *)

(** X17: a stable version starts with the letter v and a digit from 1 to 9:
    a version without the v, or with a major number that is 0 or has a
    leading zero, is not stable. *)
Theorem IsStableVersion_prefix (v : string) :
  IsStableVersion v = true →
  ∃ d rest,
    v = String "v" (String d rest) ∧ semver.isDigit d = true ∧ d ≠ "0"%char.
Proof.
  intros Hstable.
  destruct (semver.parse v) as [pv|] eqn:Hp.
  - apply (IsStableVersion_parsed _ _ Hp) in Hstable.
    destruct (parse_major _ _ Hp) as (rest & -> & c & d & HM & Hc & _ & Hzero).
    rewrite HM in *. exists c, (d +:+ rest). split_and!; [done|done|].
    intros ->. rewrite (Hzero eq_refl) in Hstable. by vm_compute in Hstable.
  - by rewrite (IsStableVersion_malformed _ Hp) in Hstable.
Qed.

Lemma IsStableVersion_prefix_witness :
  ∃ d rest,
    "v1.4.0-rc.1" = String "v" (String d rest)
    ∧ semver.isDigit d = true ∧ d ≠ "0"%char.
Proof. apply (IsStableVersion_prefix "v1.4.0-rc.1"). reflexivity. Defined.

(** ** Two edges of the go.mod tests *)

(** X18: [findGoMod] tests the base name of a path, not whether the path is
    a file.  A directory called go.mod that the walk reaches and can list is
    read like a file, which fails: [BuildModulePathMap] then returns an
    error and no index, whatever else the tree holds. *)
Theorem BuildModulePathMap_directory_named_go_mod
    (Join : string → string → string) (modfile_ModulePath : string → string)
    (versionCfg : versionConfig) (root : string) (tree : entry)
    (p name : string) (names : list entry) :
  (p, Dir name None names) ∈ visits Join root tree →
  filepath.Base p = "go.mod" →
  ∃ msg out,
    BuildModulePathMap Join modfile_ModulePath versionCfg root tree
      = (None, Some (OSError msg), out).
Proof.
  intros Hin Hbase.
  assert (unreadableManifest (p, Dir name None names)
          = Some ("read " +:+ p +:+ ": is a directory")) as Hdir.
  { unfold unreadableManifest, isManifest. simpl.
    by rewrite (bool_decide_eq_true_2 _ Hbase). }
  rewrite BuildModulePathMap_runVisits.
  destruct (first_unreadable (visits Join root tree))
    as [Hall|(before & v & after & msg & Heq & Hbefore & Hv)].
  - rewrite Forall_forall in Hall. specialize (Hall _ Hin). congruence.
  - rewrite Heq.
    rewrite (runVisits_findGoMod_unreadable _ _ before after v msg) by done.
    by eexists _, _.
Qed.

Lemma BuildModulePathMap_directory_named_go_mod_witness :
  ∃ msg out,
    BuildModulePathMap joinSlash declaredModulePath (mkVersionConfig ∅ [])
      "/repo"
      (Dir "repo" None
         [Dir "go.mod" None [];
          Dir "sdk" None [File "go.mod" (Content "module example.com/sdk")]])
      = (None, Some (OSError msg), out).
Proof.
  apply (BuildModulePathMap_directory_named_go_mod joinSlash declaredModulePath
           (mkVersionConfig ∅ []) "/repo" _ "/repo/go.mod" "go.mod" []).
  - apply list_elem_of_further, list_elem_of_here.
  - reflexivity.
Defined.

(** X19: [moduleFilePathToTagName] tests the last bytes of the path, not
    the name of the file.  A path under the root whose last element only
    ends in go.mod is accepted, and the whole path below the root, file name
    included, is its tag name. *)
Theorem moduleFilePathToTagName_name_ending_in_go_mod
    (repoRoot before : string) (c : ascii) :
  c ≠ "/"%char →
  moduleFilePathToTagName
    (repoRoot +:+ "/" +:+ before +:+ String c "go.mod") repoRoot
    = (before +:+ String c "go.mod", None).
Proof.
  intros Hc.
  assert (strings.HasSuffix (before +:+ String c "go.mod") "/go.mod" = false)
    as Hdir.
  { rewrite HasSuffix_app_skip by (cbv; lia).
    unfold strings.HasSuffix, strings.slice, strings.len. simpl.
    destruct (Ascii.eqb_spec c "/"); [done|]. done. }
  assert (strings.TrimSuffix (before +:+ String c "go.mod") "/go.mod"
          = before +:+ String c "go.mod") as Htrim.
  { unfold strings.TrimSuffix. by rewrite Hdir. }
  rewrite moduleFilePathToTagName_under_root.
  - rewrite Htrim. destruct (decide _) as [Heq|_]; [|done].
    apply (f_equal strings.len) in Heq. rewrite len_app in Heq.
    unfold strings.len in Heq. simpl in Heq. lia.
  - rewrite <- !sapp_assoc.
    change (String c "go.mod") with (String c "" +:+ "go.mod").
    rewrite <- sapp_assoc. apply HasSuffix_app.
Qed.

Lemma moduleFilePathToTagName_name_ending_in_go_mod_witness :
  moduleFilePathToTagName ("/repo" +:+ "/" +:+ "sdk/old" +:+ String "." "go.mod")
    "/repo"
  = ("sdk/old" +:+ String "." "go.mod", None).
Proof.
  apply (moduleFilePathToTagName_name_ending_in_go_mod "/repo" "sdk/old" ".").
  discriminate.
Defined.
